(** * Bubbles: the topology-to-gmsh-entity compiler

    A shallow embedding of [bubbles/gmsh_utils.py] (the functions
    [bubble_to_gmsh_entities] and [topology_to_gmsh_entities]) together
    with the properties of the compiled entity set: tag allocation, ring
    compilation, plane surfaces, hole filtering and physical-group
    merging. The functions [mesh] and [write_geo] of the same file are
    embedded as runs against a gmsh kernel that is a parameter: a run
    gives the gmsh calls that returned and the exception that ended it,
    if one did.

    Python values are modelled as follows:
    - [int] (levels and tags) is [Z];
    - [float] is the kernel's binary64 [float], so [0.0] and [0.1] are the
      very doubles Python uses;
    - a [list] is a [list]; indexing that can raise [IndexError] returns
      in the [result] monad;
    - a [set] of levels is a [gset Z];
    - a [NamedTuple] is a record, a [TypedDict] with a fixed key set too. *)

From Stdlib Require Import Floats.
From stdpp Require Import base option list numbers sorting strings gmap.

Set Default Proof Using "Type".
(* [0.1] is not a binary64 value: as in Python, the literal stands for the
   nearest double. *)
Set Warnings "-inexact-float".
Local Open Scope Z_scope.

(** ** Exceptions *)

(** The only exception the modelled code can raise on the inputs the model
    admits: indexing a list out of range. *)
Inductive exn : Type :=
  | IndexError.

Inductive result (A : Type) : Type :=
  | Ok (a : A)
  | Raise (e : exn).
Global Arguments Ok {A} a.
Global Arguments Raise {A} e.

Global Instance result_ret : MRet result := @Ok.
Global Instance result_bind : MBind result := λ A B f m,
  match m with
  | Ok a => f a
  | Raise e => Raise e
  end.

(** [l[i]] for a non-negative index [i]. *)
Definition index {A} (l : list A) (i : nat) : result A :=
  match l !! i with
  | Some a => Ok a
  | None => Raise IndexError
  end.

(** [l[-1]]. *)
Definition index_last {A} (l : list A) : result A :=
  match last l with
  | Some a => Ok a
  | None => Raise IndexError
  end.

(** [l[:-1]]: every element but the last one; the empty list stays
    empty. *)
Definition all_but_last {A} (l : list A) : list A :=
  take (length l - 1)%nat l.

(** A [for] loop whose body may raise: the state is threaded through the
    items in order and the first exception ends the loop. *)
Fixpoint for_each {S A} (body : S → A → result S) (s : S) (items : list A)
    : result S :=
  match items with
  | [] => Ok s
  | a :: items => s' ← body s a; for_each body s' items
  end.

(** A list comprehension [[f a for a in l]] whose element expression may
    raise. *)
Fixpoint comprehension {A B} (f : A → result B) (l : list A)
    : result (list B) :=
  match l with
  | [] => Ok []
  | a :: l => b ← f a; bs ← comprehension f l; Ok (b :: bs)
  end.

(** ** The entity records *)

Inductive PhysicalDimension : Type :=
  | two
  | three.

(** The value of an [IntEnum] member; the literal [2] the code passes as
    [dim] is [two]. *)
Definition PhysicalDimension_value (d : PhysicalDimension) : Z :=
  match d with
  | two => 2
  | three => 3
  end.

Module Point.
Record t : Type := mk { x : float; y : float; z : float; lc : float; tag : Z }.
End Point.

Module Line.
Record t : Type := mk { start_tag : Z; end_tag : Z; tag : Z }.
End Line.

Module CurveLoop.
Record t : Type := mk { line_tags : list Z; tag : Z }.
End CurveLoop.

Module PlaneSurface.
Record t : Type := mk { curve_loop_tags : list Z; tag : Z }.
End PlaneSurface.

Module PhysicalGroup.
Record t : Type :=
    mk { dim : PhysicalDimension; entity_tags : list Z; tag : Z }.
End PhysicalGroup.

(** The dictionaries the two functions build have exactly these five
    keys. *)
Record GmshEntities : Type := mkGmshEntities {
  points : list Point.t;
  lines : list Line.t;
  curve_loops : list CurveLoop.t;
  plane_surfaces : list PlaneSurface.t;
  physical_groups : list PhysicalGroup.t;
}.

(** ** The input: polygons and the topology *)

(** A two-dimensional coordinate, as [coords] yields it for a polygon
    without z. A polygon with z is outside the model: its coordinates are
    triples, and [for x, y in ...] raises [ValueError] on the first. *)
Abbreviation coord := (float * float)%type (only parsing).

(** [ring.coords]: the coordinate sequence of a linear ring, closing
    coordinate included. *)
Abbreviation ring := (list coord) (only parsing).

(** A [shapely.Polygon]: [polygon.exterior.coords] and the [coords] of
    each ring of [polygon.interiors]. *)
Record Polygon : Type := mkPolygon {
  exterior : ring;
  interiors : list ring;
}.

(** Modelled from the spec: the class [Topology] of [bubbles.topology],
    which the code only uses through [topo.flatten()], a finite sequence
    of (polygon, level) pairs, and [topo.holes], the set of levels that
    are holes. *)
Record Topology : Type := mkTopology {
  flatten : list (Polygon * Z);
  holes : gset Z;
}.

(** ** [bubble_to_gmsh_entities] *)

Definition z_planar : float := 0%float.
Definition lc_default : float := 0.1%float.

(** The loop [for x, y in coords[:-1]] that creates the points of one
    ring. *)
Definition add_points (coords : ring) (point_tag : Z) : list Point.t * Z :=
  fold_left
    (λ '(points_local, point_tag) '(x, y),
       let point := Point.mk x y z_planar lc_default point_tag in
       (points_local ++ [point], point_tag + 1))
    (all_but_last coords) ([], point_tag).

(** The loop [for i in range(len(points_local) - 1)] and the closing line
    after it. *)
Definition add_lines (points_local : list Point.t) (line_tag : Z)
    : result (list Line.t * Z) :=
  '(lines_local, line_tag) ←
    for_each
      (λ '(lines_local, line_tag) i,
         p ← index points_local i;
         q ← index points_local (i + 1)%nat;
         let line := Line.mk (Point.tag p) (Point.tag q) line_tag in
         Ok (lines_local ++ [line], line_tag + 1))
      ([], line_tag) (seq 0 (length points_local - 1)%nat);
  p ← index_last points_local;
  q ← index points_local 0;
  let line := Line.mk (Point.tag p) (Point.tag q) line_tag in
  Ok (lines_local ++ [line], line_tag + 1).

(** The block the function runs once for the exterior ring and once per
    interior ring: points, lines and the curve loop of one ring. It
    returns the local lists, the curve loop and the advanced counters. *)
Definition ring_to_gmsh_entities (coords : ring) (point_tag line_tag curve_loop_tag : Z)
    : result (list Point.t * list Line.t * CurveLoop.t * Z * Z * Z) :=
  let '(points_local, point_tag) := add_points coords point_tag in
  '(lines_local, line_tag) ← add_lines points_local line_tag;
  let curve_loop := CurveLoop.mk (Line.tag <$> lines_local) curve_loop_tag in
  Ok (points_local, lines_local, curve_loop, point_tag, line_tag, curve_loop_tag + 1).

(** The function returns the entity dictionary of one region and the four
    advanced counters. Its assertion [isinstance(polygon, shapely.Polygon)]
    is the type of [polygon] here. *)
Definition bubble_to_gmsh_entities (polygon : Polygon) (level : Z)
    (point_tag line_tag curve_loop_tag plane_surface_tag : Z)
    : result (GmshEntities * Z * Z * Z * Z) :=
  let physical_group_tag := level + 1 in
  (* exterior loop *)
  '(points_local, lines_local, curve_loop, point_tag, line_tag, curve_loop_tag) ←
    ring_to_gmsh_entities (exterior polygon) point_tag line_tag curve_loop_tag;
  let points_total := [] ++ points_local in
  let lines_total := [] ++ lines_local in
  let curve_loops := [] ++ [curve_loop] in
  (* interior loops *)
  '(points_total, lines_total, curve_loops, point_tag, line_tag, curve_loop_tag) ←
    for_each
      (λ '(points_total, lines_total, curve_loops, point_tag, line_tag, curve_loop_tag) loop,
         '(points_local, lines_local, curve_loop, point_tag, line_tag, curve_loop_tag) ←
           ring_to_gmsh_entities loop point_tag line_tag curve_loop_tag;
         Ok (points_total ++ points_local, lines_total ++ lines_local,
             curve_loops ++ [curve_loop], point_tag, line_tag, curve_loop_tag))
      (points_total, lines_total, curve_loops, point_tag, line_tag, curve_loop_tag)
      (interiors polygon);
  (* surface *)
  let plane_surfaces :=
    [PlaneSurface.mk (CurveLoop.tag <$> curve_loops) plane_surface_tag] in
  let physical_groups :=
    [PhysicalGroup.mk two [plane_surface_tag] physical_group_tag] in
  let plane_surface_tag := plane_surface_tag + 1 in
  Ok (mkGmshEntities points_total lines_total curve_loops plane_surfaces physical_groups,
      point_tag, line_tag, curve_loop_tag, plane_surface_tag).

(** ** [topology_to_gmsh_entities] *)

(** [list.sort(key=...)] is stable: an insertion sort that places an item
    before the first later item whose key is not smaller. *)
Fixpoint insert_by_key {A} (key : A → Z) (a : A) (l : list A) : list A :=
  match l with
  | [] => [a]
  | b :: l' =>
      if bool_decide (key a ≤ key b) then a :: l
      else b :: insert_by_key key a l'
  end.

Definition sort_by_key {A} (key : A → Z) (l : list A) : list A :=
  foldr (insert_by_key key) [] l.

(** [itertools.groupby]: the maximal runs of consecutive items with the
    same key, each with its key. *)
Fixpoint groupby {A} (key : A → Z) (l : list A) : list (Z * list A) :=
  match l with
  | [] => []
  | a :: l' =>
      match groupby key l' with
      | (k, g) :: groups =>
          if bool_decide (key a = k) then (k, a :: g) :: groups
          else (key a, [a]) :: (k, g) :: groups
      | [] => [(key a, [a])]
      end
  end.

(** The loop [for polygon, level in bubbles] with its guard
    [level not in topo.holes]. *)
Definition compile_bubbles (holes : gset Z) (bubbles : list (Polygon * Z))
    (point_tag line_tag curve_loop_tag plane_surface_tag : Z)
    : result (list GmshEntities * Z * Z * Z * Z) :=
  for_each
    (λ '(all_entities_list, point_tag, line_tag, curve_loop_tag, plane_surface_tag)
       '(polygon, level),
       if bool_decide (level ∉ holes) then
         '(gmsh_entities, point_tag, line_tag, curve_loop_tag, plane_surface_tag) ←
           bubble_to_gmsh_entities polygon level
             point_tag line_tag curve_loop_tag plane_surface_tag;
         Ok (all_entities_list ++ [gmsh_entities],
             point_tag, line_tag, curve_loop_tag, plane_surface_tag)
       else
         Ok (all_entities_list, point_tag, line_tag, curve_loop_tag, plane_surface_tag))
    ([], point_tag, line_tag, curve_loop_tag, plane_surface_tag) bubbles.

(** The group-by-tag block: one merged group per run of equal tags in the
    sorted list. *)
Definition merge_physical_groups (all_entities_list : list GmshEntities)
    : result (list PhysicalGroup.t) :=
  physical_groups ←
    comprehension (λ e, index (physical_groups e) 0) all_entities_list;
  let physical_groups := sort_by_key PhysicalGroup.tag physical_groups in
  for_each
    (λ physical_groups_merged '(tag, physical_group),
       entity_tags ←
         comprehension (λ s, index (PhysicalGroup.entity_tags s) 0) physical_group;
       Ok (physical_groups_merged ++ [PhysicalGroup.mk two entity_tags tag]))
    [] (groupby PhysicalGroup.tag physical_groups).

(** The four counters start at 1 and run through all the regions; the
    dictionary returned concatenates the entities of the regions in the
    order they were compiled and carries the merged groups. *)
Definition topology_to_gmsh_entities (topo : Topology) : result GmshEntities :=
  let bubbles := flatten topo in
  '(all_entities_list, _, _, _, _) ← compile_bubbles (holes topo) bubbles 1 1 1 1;
  physical_groups_merged ← merge_physical_groups all_entities_list;
  Ok (mkGmshEntities
        (all_entities_list ≫= points)
        (all_entities_list ≫= lines)
        (all_entities_list ≫= curve_loops)
        (all_entities_list ≫= plane_surfaces)
        physical_groups_merged).

(** ** Pure descriptions of what the compiler produces *)

(** A ring can be compiled when at least one coordinate is left after the
    last one is dropped. *)
Definition ring_ok (coords : ring) : bool :=
  bool_decide (1 < length coords)%nat.

Definition polygon_ok (polygon : Polygon) : bool :=
  forallb ring_ok (exterior polygon :: interiors polygon).

(** The number of points (and of lines) of a ring. *)
Definition ring_size (coords : ring) : nat :=
  (length coords - 1)%nat.

Definition rings_size (rings : list ring) : nat :=
  sum_list (ring_size <$> rings).

Definition ring_points (coords : ring) (point_tag : Z) : list Point.t :=
  imap (λ i c, Point.mk c.1 c.2 z_planar lc_default (point_tag + Z.of_nat i))
       (all_but_last coords).

Definition ring_lines (n : nat) (point_tag line_tag : Z) : list Line.t :=
  (λ i : nat,
     Line.mk (point_tag + Z.of_nat i) (point_tag + Z.of_nat (S i mod n))
             (line_tag + Z.of_nat i)) <$> seq 0 n.

Definition ring_loop (n : nat) (line_tag curve_loop_tag : Z) : CurveLoop.t :=
  CurveLoop.mk (seqZ line_tag (Z.of_nat n)) curve_loop_tag.

(** The entities of a sequence of rings compiled one after the other, the
    counters running on from ring to ring. *)
Fixpoint rings_points (rings : list ring) (point_tag : Z) : list Point.t :=
  match rings with
  | [] => []
  | r :: rings =>
      ring_points r point_tag
      ++ rings_points rings (point_tag + Z.of_nat (ring_size r))
  end.

Fixpoint rings_lines (rings : list ring) (point_tag line_tag : Z) : list Line.t :=
  match rings with
  | [] => []
  | r :: rings =>
      ring_lines (ring_size r) point_tag line_tag
      ++ rings_lines rings (point_tag + Z.of_nat (ring_size r))
                     (line_tag + Z.of_nat (ring_size r))
  end.

Fixpoint rings_loops (rings : list ring) (line_tag curve_loop_tag : Z)
    : list CurveLoop.t :=
  match rings with
  | [] => []
  | r :: rings =>
      ring_loop (ring_size r) line_tag curve_loop_tag
      :: rings_loops rings (line_tag + Z.of_nat (ring_size r)) (curve_loop_tag + 1)
  end.

(** The rings of a polygon in the order they are compiled. *)
Definition polygon_rings (polygon : Polygon) : list ring :=
  exterior polygon :: interiors polygon.

Definition polygon_entities (polygon : Polygon) (level : Z)
    (point_tag line_tag curve_loop_tag plane_surface_tag : Z) : GmshEntities :=
  let rings := polygon_rings polygon in
  mkGmshEntities
    (rings_points rings point_tag)
    (rings_lines rings point_tag line_tag)
    (rings_loops rings line_tag curve_loop_tag)
    [PlaneSurface.mk (seqZ curve_loop_tag (Z.of_nat (length rings))) plane_surface_tag]
    [PhysicalGroup.mk two [plane_surface_tag] (level + 1)].

(** The pairs the loop of [topology_to_gmsh_entities] compiles. *)
Definition non_holes (holes : gset Z) (bubbles : list (Polygon * Z))
    : list (Polygon * Z) :=
  filter (λ b, b.2 ∉ holes) bubbles.

Fixpoint bubbles_entities (bubbles : list (Polygon * Z))
    (point_tag line_tag curve_loop_tag plane_surface_tag : Z) : list GmshEntities :=
  match bubbles with
  | [] => []
  | (polygon, level) :: bubbles =>
      let n := Z.of_nat (rings_size (polygon_rings polygon)) in
      polygon_entities polygon level point_tag line_tag curve_loop_tag plane_surface_tag
      :: bubbles_entities bubbles (point_tag + n) (line_tag + n)
           (curve_loop_tag + Z.of_nat (length (polygon_rings polygon)))
           (plane_surface_tag + 1)
  end.

Definition bubbles_ok (bubbles : list (Polygon * Z)) : bool :=
  forallb (λ b, polygon_ok b.1) bubbles.

(** The number of points (and of lines), and of curve loops, of a
    sequence of regions. *)
Definition bubbles_size (bubbles : list (Polygon * Z)) : nat :=
  sum_list ((λ b, rings_size (polygon_rings b.1)) <$> bubbles).

Definition bubbles_rings (bubbles : list (Polygon * Z)) : nat :=
  sum_list ((λ b, length (polygon_rings b.1)) <$> bubbles).

(** The physical-group records of the regions before they are merged:
    the region compiled [i]-th owns the plane surface
    [plane_surface_tag + i]. *)
Fixpoint bubbles_groups (bubbles : list (Polygon * Z)) (plane_surface_tag : Z)
    : list PhysicalGroup.t :=
  match bubbles with
  | [] => []
  | (_, level) :: bubbles =>
      PhysicalGroup.mk two [plane_surface_tag] (level + 1)
      :: bubbles_groups bubbles (plane_surface_tag + 1)
  end.

(** One merged record per run of [groupby]. *)
Definition merge_group (kg : Z * list PhysicalGroup.t) : PhysicalGroup.t :=
  PhysicalGroup.mk two (kg.2 ≫= PhysicalGroup.entity_tags) kg.1.

Definition merged_groups (groups : list PhysicalGroup.t) : list PhysicalGroup.t :=
  merge_group <$> groupby PhysicalGroup.tag (sort_by_key PhysicalGroup.tag groups).

(** A record that groups exactly one entity. *)
Definition single_entity (s : PhysicalGroup.t) : Prop :=
  ∃ t, PhysicalGroup.entity_tags s = [t].

(** The entity set of a topology whose non-hole regions all compile. *)
Definition topology_entities (topo : Topology) : GmshEntities :=
  let bubbles := non_holes (holes topo) (flatten topo) in
  let all_entities_list := bubbles_entities bubbles 1 1 1 1 in
  mkGmshEntities
    (all_entities_list ≫= points)
    (all_entities_list ≫= lines)
    (all_entities_list ≫= curve_loops)
    (all_entities_list ≫= plane_surfaces)
    (merged_groups (bubbles_groups bubbles 1)).

(** The order [list.sort(key=...)] sorts by. *)
Definition key_le {A} (key : A → Z) (a b : A) : Prop := key a ≤ key b.

(** A point of a planar region with the fixed characteristic length. *)
Definition planar_default_point (p : Point.t) : Prop :=
  Point.z p = 0%float ∧ Point.lc p = lc_default.

(** Python's [==] on coordinate pairs, and coordinate sequences without
    two equal coordinates. *)
Definition coord_eqb (a b : coord) : bool :=
  PrimFloat.eqb a.1 b.1 && PrimFloat.eqb a.2 b.2.

Fixpoint distinct_coords (cs : list coord) : bool :=
  match cs with
  | [] => true
  | c :: cs => negb (existsb (coord_eqb c) cs) && distinct_coords cs
  end.

(** The number of different coordinates in a sequence. *)
Fixpoint count_distinct (cs : list coord) : nat :=
  match cs with
  | [] => 0
  | c :: cs =>
      if existsb (coord_eqb c) cs then count_distinct cs
      else S (count_distinct cs)
  end.

(** ** Example inputs *)

Definition square : ring :=
  [(0, 0); (1, 0); (1, 1); (0, 1); (0, 0)]%float.

Definition inner_square : ring :=
  [(0.25, 0.25); (0.75, 0.25); (0.75, 0.75); (0.25, 0.75); (0.25, 0.25)]%float.

Definition far_square : ring :=
  [(2, 0); (3, 0); (3, 1); (2, 1); (2, 0)]%float.

Definition square_polygon : Polygon := mkPolygon square [].
Definition holed_square : Polygon := mkPolygon square [inner_square].
Definition far_polygon : Polygon := mkPolygon far_square [].

(** The single square at level 0, no hole level. *)
Definition square_topology : Topology :=
  mkTopology [(square_polygon, 0)] ∅.

(** The square with one interior ring at level 0, no hole level. *)
Definition holed_square_topology : Topology :=
  mkTopology [(holed_square, 0)] ∅.

(** Three regions, the middle one on the hole level 1 (the hole set of
    [examples/chess_board.py]). *)
Definition chess_topology : Topology :=
  mkTopology [(holed_square, 2); (square_polygon, 1); (far_polygon, 2)] {[1]}.

(** Only a region on the hole level. *)
Definition void_topology : Topology :=
  mkTopology [(square_polygon, 1)] {[1]}.

(** A closed ring of four coordinates, only two of them different: the
    second coordinate is repeated. *)
Definition degenerate_ring : ring :=
  [(0, 0); (1, 0); (1, 0); (0, 0)]%float.

Definition degenerate_topology : Topology :=
  mkTopology [(mkPolygon degenerate_ring [], 0)] ∅.

(** The empty polygon ([shapely.Polygon()]): its exterior ring has no
    coordinate at all. *)
Definition empty_polygon : Polygon := mkPolygon [] [].

Definition empty_polygon_topology : Topology :=
  mkTopology [(empty_polygon, 0)] ∅.

(** ** Further descriptions of the compiled entities *)

(** The planar coordinate of a point. *)
Definition point_coord (p : Point.t) : float * float :=
  (Point.x p, Point.y p).

(** The coordinates a polygon contributes points for: those of its rings
    in compilation order, each without its last coordinate. *)
Definition polygon_coords (polygon : Polygon) : list (float * float) :=
  polygon_rings polygon ≫= all_but_last.

(** The entity a one-entity record groups. *)
Definition first_entity (s : PhysicalGroup.t) : Z :=
  default 0 (head (PhysicalGroup.entity_tags s)).

(** Sorted by key, and by [R] among items of equal key. *)
Definition key_then {A} (key : A → Z) (R : relation A) (a b : A) : Prop :=
  key a < key b ∨ (key a = key b ∧ R a b).

(** ** The gmsh session: [mesh] and [write_geo] *)

(** The calls of the gmsh Python API that [mesh] and [write_geo] make, with
    the arguments they pass. *)
Inductive gmsh_call : Type :=
  | gmsh_initialize
  | gmsh_model_add (name : string)
  | geo_addPoint (x y z meshSize : float) (tag : Z)
  | geo_addLine (startTag endTag tag : Z)
  | geo_addCurveLoop (curveTags : list Z) (tag : Z) (reorient : bool)
  | geo_addPlaneSurface (wireTags : list Z) (tag : Z)
  | geo_addPhysicalGroup (dim : Z) (tag : Z) (tags : list Z)
  | geo_removeAllDuplicates
  | geo_synchronize
  | mesh_generate (dim : Z)
  | option_setNumber (name : string) (value : Z)
  | gmsh_write (fileName : string)
  | gmsh_finalize.

(** How [mesh] or [write_geo] can end early: the failed [assert], the
    [ValueError] of [with_suffix], or the exception of a gmsh call, which
    is recorded with the call that raised. *)
Inductive mesh_exn : Type :=
  | AssertionError
  | ValueError
  | GmshError (c : gmsh_call).

(** A [pathlib.Path], by what the two functions read of it:
    [file_name.name] and [str(file_name.with_suffix(suffix))]. On a path
    with an empty name [with_suffix] raises [ValueError]: [None]. *)
Record Path : Type := mkPath {
  path_name : string;
  path_with_suffix : string → option string;
}.

(** One statement of the two functions: a gmsh call, or the exception
    raised while the argument of the call is computed. *)
Definition write_to (file_name : Path) (suffix : string) : mesh_exn + gmsh_call :=
  match path_with_suffix file_name suffix with
  | Some fileName => inr (gmsh_write fileName)
  | None => inl ValueError
  end.

(** The gmsh kernel is outside the repository and is a parameter here:
    [gmsh returned c] says whether the call [c], made after the calls
    [returned] have returned, returns ([true]) or raises ([false]). Neither
    function catches an exception or has a [finally]: the statements run
    in order until one raises. The result is the calls that returned and
    the exception, if there was one. *)
Fixpoint run_statements (gmsh : list gmsh_call → gmsh_call → bool)
    (returned : list gmsh_call) (statements : list (mesh_exn + gmsh_call))
    : list gmsh_call * option mesh_exn :=
  match statements with
  | [] => (returned, None)
  | inl exn :: _ => (returned, Some exn)
  | inr c :: statements =>
      if gmsh returned c
      then run_statements gmsh (returned ++ [c]) statements
      else (returned, Some (GmshError c))
  end.

(** [mesh]: the gmsh calls that returned, and the exception that ended the
    function if one did. Each of the five loops over the entity dictionary
    makes one call per record. The arguments are all explicit (the
    defaults of the source are [dim=2], [write_geo=True],
    [correct_curve_loops=False], [save_all=False]). *)
Definition mesh (gmsh : list gmsh_call → gmsh_call → bool)
    (gmsh_entities : GmshEntities) (file_name : Path) (dim : Z)
    (write_geo correct_curve_loops save_all : bool)
    : list gmsh_call * option mesh_exn :=
  if bool_decide (dim = 2 ∨ dim = 3) then
    run_statements gmsh []
      ([inr gmsh_initialize; inr (gmsh_model_add (path_name file_name))]
       ++ ((λ point,
              inr (geo_addPoint (Point.x point) (Point.y point) (Point.z point)
                                (Point.lc point) (Point.tag point)))
             <$> points gmsh_entities)
       ++ ((λ line,
              inr (geo_addLine (Line.start_tag line) (Line.end_tag line)
                               (Line.tag line)))
             <$> lines gmsh_entities)
       ++ ((λ curve_loop,
              inr (geo_addCurveLoop (CurveLoop.line_tags curve_loop)
                                    (CurveLoop.tag curve_loop) correct_curve_loops))
             <$> curve_loops gmsh_entities)
       ++ ((λ plane_surface,
              inr (geo_addPlaneSurface (PlaneSurface.curve_loop_tags plane_surface)
                                       (PlaneSurface.tag plane_surface)))
             <$> plane_surfaces gmsh_entities)
       ++ ((λ physical_group,
              inr (geo_addPhysicalGroup
                     (PhysicalDimension_value (PhysicalGroup.dim physical_group))
                     (PhysicalGroup.tag physical_group)
                     (PhysicalGroup.entity_tags physical_group)))
             <$> physical_groups gmsh_entities)
       ++ [inr geo_synchronize; inr (mesh_generate dim);
           inr (option_setNumber "Mesh.MshFileVersion" 2)]
       ++ (if save_all then [inr (option_setNumber "Mesh.SaveAll" 1)] else [])
       ++ [write_to file_name ".msh"]
       ++ (if write_geo then [write_to file_name ".geo_unrolled"] else [])
       ++ [inr gmsh_finalize])
  else ([], Some AssertionError).

(** [write_geo]: the gmsh calls that returned, and the exception that
    ended the function if one did. *)
Definition write_geo (gmsh : list gmsh_call → gmsh_call → bool)
    (file_name : Path) (gmsh_entities : GmshEntities)
    (correct_curve_loops : bool) : list gmsh_call * option mesh_exn :=
  run_statements gmsh []
    ([inr gmsh_initialize; inr (gmsh_model_add (path_name file_name))]
     ++ ((λ point,
            inr (geo_addPoint (Point.x point) (Point.y point) (Point.z point)
                              (Point.lc point) (Point.tag point)))
           <$> points gmsh_entities)
     ++ ((λ line,
            inr (geo_addLine (Line.start_tag line) (Line.end_tag line)
                             (Line.tag line)))
           <$> lines gmsh_entities)
     ++ ((λ curve_loop,
            inr (geo_addCurveLoop (CurveLoop.line_tags curve_loop)
                                  (CurveLoop.tag curve_loop) correct_curve_loops))
           <$> curve_loops gmsh_entities)
     ++ ((λ plane_surface,
            inr (geo_addPlaneSurface (PlaneSurface.curve_loop_tags plane_surface)
                                     (PlaneSurface.tag plane_surface)))
           <$> plane_surfaces gmsh_entities)
     ++ ((λ physical_group,
            inr (geo_addPhysicalGroup
                   (PhysicalDimension_value (PhysicalGroup.dim physical_group))
                   (PhysicalGroup.tag physical_group)
                   (PhysicalGroup.entity_tags physical_group)))
           <$> physical_groups gmsh_entities)
     ++ [inr geo_removeAllDuplicates; inr geo_synchronize;
         write_to file_name ".geo_unrolled"; inr gmsh_finalize]).

(** The calls that define the entities of a dictionary, kind after
    kind. *)
Definition entity_calls (e : GmshEntities) (correct_curve_loops : bool)
    : list gmsh_call :=
  ((λ point,
      geo_addPoint (Point.x point) (Point.y point) (Point.z point)
                   (Point.lc point) (Point.tag point)) <$> points e)
  ++ ((λ line,
         geo_addLine (Line.start_tag line) (Line.end_tag line) (Line.tag line))
        <$> lines e)
  ++ ((λ curve_loop,
         geo_addCurveLoop (CurveLoop.line_tags curve_loop)
                          (CurveLoop.tag curve_loop) correct_curve_loops)
        <$> curve_loops e)
  ++ ((λ plane_surface,
         geo_addPlaneSurface (PlaneSurface.curve_loop_tags plane_surface)
                             (PlaneSurface.tag plane_surface))
        <$> plane_surfaces e)
  ++ ((λ physical_group,
         geo_addPhysicalGroup
           (PhysicalDimension_value (PhysicalGroup.dim physical_group))
           (PhysicalGroup.tag physical_group)
           (PhysicalGroup.entity_tags physical_group))
        <$> physical_groups e).

(** ** Scripts the kernel can follow *)

(** What a script has set up so far: whether a session is open, and the
    tags defined in each kind. *)
Record kernel : Type := mkKernel {
  active : bool;
  k_points : gset Z;
  k_lines : gset Z;
  k_curve_loops : gset Z;
  k_plane_surfaces : gset Z;
  k_physical_groups : gset Z;
}.

Definition idle : kernel := mkKernel false ∅ ∅ ∅ ∅ ∅.

(** One call of a planar script is in order when the session is open (or,
    for [initialize], closed), the tag it defines is new in its kind, and
    the tags it refers to are defined: the end points of a line, the lines
    of a curve loop, the curve loops of a plane surface, the plane
    surfaces of a physical group of dimension 2. *)
Definition accept (k : kernel) (c : gmsh_call) : option kernel :=
  match c with
  | gmsh_initialize =>
      if active k then None else Some (mkKernel true ∅ ∅ ∅ ∅ ∅)
  | gmsh_finalize =>
      if active k then Some idle else None
  | geo_addPoint _ _ _ _ tag =>
      if active k && bool_decide (tag ∉ k_points k)
      then Some (mkKernel true ({[tag]} ∪ k_points k) (k_lines k)
                   (k_curve_loops k) (k_plane_surfaces k) (k_physical_groups k))
      else None
  | geo_addLine startTag endTag tag =>
      if active k && bool_decide (startTag ∈ k_points k)
         && bool_decide (endTag ∈ k_points k)
         && bool_decide (tag ∉ k_lines k)
      then Some (mkKernel true (k_points k) ({[tag]} ∪ k_lines k)
                   (k_curve_loops k) (k_plane_surfaces k) (k_physical_groups k))
      else None
  | geo_addCurveLoop curveTags tag _ =>
      if active k && forallb (λ t, bool_decide (t ∈ k_lines k)) curveTags
         && bool_decide (tag ∉ k_curve_loops k)
      then Some (mkKernel true (k_points k) (k_lines k)
                   ({[tag]} ∪ k_curve_loops k) (k_plane_surfaces k)
                   (k_physical_groups k))
      else None
  | geo_addPlaneSurface wireTags tag =>
      if active k && forallb (λ t, bool_decide (t ∈ k_curve_loops k)) wireTags
         && bool_decide (tag ∉ k_plane_surfaces k)
      then Some (mkKernel true (k_points k) (k_lines k) (k_curve_loops k)
                   ({[tag]} ∪ k_plane_surfaces k) (k_physical_groups k))
      else None
  | geo_addPhysicalGroup dim tag tags =>
      if active k && bool_decide (dim = 2)
         && forallb (λ t, bool_decide (t ∈ k_plane_surfaces k)) tags
         && bool_decide (tag ∉ k_physical_groups k)
      then Some (mkKernel true (k_points k) (k_lines k) (k_curve_loops k)
                   (k_plane_surfaces k) ({[tag]} ∪ k_physical_groups k))
      else None
  | gmsh_model_add _ | geo_removeAllDuplicates | geo_synchronize
  | mesh_generate _ | option_setNumber _ _ | gmsh_write _ =>
      if active k then Some k else None
  end.

Fixpoint accept_all (k : kernel) (calls : list gmsh_call) : option kernel :=
  match calls with
  | [] => Some k
  | c :: calls => k' ← accept k c; accept_all k' calls
  end.

(** A script is in order when every call is and the session is closed at
    its end. *)
Definition script_ok (calls : list gmsh_call) : bool :=
  match accept_all idle calls with
  | Some k => negb (active k)
  | None => false
  end.

Global Instance PhysicalDimension_eq_dec : EqDecision PhysicalDimension.
Proof. solve_decision. Defined.

(** An entity set whose tags are unique within each kind and whose
    references all resolve. *)
Definition coherent (e : GmshEntities) : Prop :=
  NoDup (Point.tag <$> points e)
  ∧ NoDup (Line.tag <$> lines e)
  ∧ NoDup (CurveLoop.tag <$> curve_loops e)
  ∧ NoDup (PlaneSurface.tag <$> plane_surfaces e)
  ∧ NoDup (PhysicalGroup.tag <$> physical_groups e)
  ∧ Forall (λ l, Line.start_tag l ∈ Point.tag <$> points e
                 ∧ Line.end_tag l ∈ Point.tag <$> points e) (lines e)
  ∧ Forall (λ c, Forall (λ t, t ∈ Line.tag <$> lines e) (CurveLoop.line_tags c))
           (curve_loops e)
  ∧ Forall (λ s, Forall (λ t, t ∈ CurveLoop.tag <$> curve_loops e)
                        (PlaneSurface.curve_loop_tags s))
           (plane_surfaces e)
  ∧ Forall (λ g, PhysicalGroup.dim g = two
                 ∧ Forall (λ t, t ∈ PlaneSurface.tag <$> plane_surfaces e)
                          (PhysicalGroup.entity_tags g))
           (physical_groups e).

(** The calls that define an entity. *)
Definition defines_entity (c : gmsh_call) : bool :=
  match c with
  | geo_addPoint _ _ _ _ _ | geo_addLine _ _ _ | geo_addCurveLoop _ _ _
  | geo_addPlaneSurface _ _ | geo_addPhysicalGroup _ _ _ => true
  | _ => false
  end.

(** The files a script writes, in order. *)
Definition written_files (calls : list gmsh_call) : list string :=
  omap (λ c, match c with gmsh_write f => Some f | _ => None end) calls.

(** The options a script sets, in order. *)
Definition options_set (calls : list gmsh_call) : list (string * Z) :=
  omap (λ c, match c with option_setNumber n v => Some (n, v) | _ => None end)
       calls.

(** A triangle written by hand, its tags not starting at 1. *)
Definition triangle_entities : GmshEntities :=
  mkGmshEntities
    [Point.mk 0 0 0 lc_default 7; Point.mk 1 0 0 lc_default 8;
     Point.mk 0 1 0 lc_default 9]
    [Line.mk 7 8 1; Line.mk 8 9 2; Line.mk 9 7 3]
    [CurveLoop.mk [1; 2; 3] 5] [PlaneSurface.mk [5] 4]
    [PhysicalGroup.mk two [4] 1].

Definition example_path : Path :=
  mkPath "chess_board" (λ suffix, Some ("chess_board" +:+ suffix)).

(** A path with an empty name, as [Path("")]. *)
Definition nameless_path : Path := mkPath "" (λ _, None).

(** The gmsh calls among a list of statements. *)
Definition statement_calls (statements : list (mesh_exn + gmsh_call))
    : list gmsh_call :=
  omap (λ x, match x with inr c => Some c | inl _ => None end) statements.

(** Two kernels to run the functions against: one lets every call return,
    the other raises in every [gmsh.write] (as a kernel may when there is
    nothing to write) and lets every other call return. *)
Definition willing_gmsh (returned : list gmsh_call) (c : gmsh_call) : bool :=
  true.

Definition no_write_gmsh (returned : list gmsh_call) (c : gmsh_call) : bool :=
  match c with
  | gmsh_write _ => false
  | _ => true
  end.

(** The calls that neither define an entity nor open or close the
    session. *)
Definition neutral (c : gmsh_call) : bool :=
  match c with
  | gmsh_model_add _ | geo_removeAllDuplicates | geo_synchronize
  | mesh_generate _ | option_setNumber _ _ | gmsh_write _ => true
  | _ => false
  end.

(** The statements after the five loops and before [gmsh.finalize()]: a
    neutral call, or the [ValueError] of [with_suffix]. *)
Definition quiet (x : mesh_exn + gmsh_call) : bool :=
  match x with
  | inr c => neutral c
  | inl ValueError => true
  | inl _ => false
  end.

(** The calls both functions start with: the session is opened, the model
    named, the entities defined. *)
Definition session_head (file_name : Path) (e : GmshEntities)
    (correct_curve_loops : bool) : list gmsh_call :=
  [gmsh_initialize; gmsh_model_add (path_name file_name)]
  ++ entity_calls e correct_curve_loops.

Definition write_geo_tail (file_name : Path) : list (mesh_exn + gmsh_call) :=
  [inr geo_removeAllDuplicates; inr geo_synchronize;
   write_to file_name ".geo_unrolled"].

Definition mesh_tail (file_name : Path) (dim : Z) (write_geo save_all : bool)
    : list (mesh_exn + gmsh_call) :=
  [inr geo_synchronize; inr (mesh_generate dim);
   inr (option_setNumber "Mesh.MshFileVersion" 2)]
  ++ (if save_all then [inr (option_setNumber "Mesh.SaveAll" 1)] else [])
  ++ [write_to file_name ".msh"]
  ++ (if write_geo then [write_to file_name ".geo_unrolled"] else []).

(** A call that passes the flag [correct_curve_loops] on as [reorient],
    if it defines a curve loop. *)
Definition reorients (correct_curve_loops : bool) (c : gmsh_call) : Prop :=
  match c with
  | geo_addCurveLoop _ _ reorient => reorient = correct_curve_loops
  | _ => True
  end.

(** A line between two points that are never defined. *)
Definition dangling_line_entities : GmshEntities :=
  mkGmshEntities [] [Line.mk 1 2 1] [] [] [].

(** * Proofs *)

(** Equal results whose components are equal lists or equal counters up
    to arithmetic. *)
Ltac solve_tags :=
  repeat match goal with
  | |- Ok _ = Ok _ => f_equal
  | |- pair _ _ = pair _ _ => f_equal
  | |- @eq Z _ _ => lia
  | |- _ => reflexivity
  end.

(** ** The [result] monad and the loops *)

Lemma for_each_app {S A} (body : S → A → result S) s l1 l2 :
  for_each body s (l1 ++ l2) = s' ← for_each body s l1; for_each body s' l2.
Proof.
  revert s. induction l1 as [|a l1 IH]; intros s; simpl; [done|].
  destruct (body s a) as [s'|e]; simpl; [apply IH|done].
Qed.

Lemma index_lookup {A} (l : list A) i a : l !! i = Some a → index l i = Ok a.
Proof. unfold index. by intros ->. Qed.

Lemma length_all_but_last {A} (l : list A) :
  length (all_but_last l) = (length l - 1)%nat.
Proof. unfold all_but_last. rewrite length_take. lia. Qed.

Lemma all_but_last_snoc {A} (l : list A) a : all_but_last (l ++ [a]) = l.
Proof.
  unfold all_but_last. rewrite length_app. simpl.
  replace (length l + 1 - 1)%nat with (length l) by lia.
  by rewrite take_app_length.
Qed.

(** ** One ring *)

Local Arguments Nat.modulo : simpl never.

Lemma add_points_fold cs acc point_tag :
  fold_left
    (λ '(points_local, point_tag) '(x, y),
       let point := Point.mk x y z_planar lc_default point_tag in
       (points_local ++ [point], point_tag + 1))
    cs (acc, point_tag)
  = (acc ++ imap (λ i c, Point.mk c.1 c.2 z_planar lc_default (point_tag + Z.of_nat i)) cs,
     point_tag + Z.of_nat (length cs)).
Proof.
  revert acc point_tag. induction cs as [|[x y] cs IH]; intros acc pt; simpl.
  - by rewrite app_nil_r, Z.add_0_r.
  - rewrite IH, <-app_assoc. simpl. f_equal.
    + do 2 f_equal; [by rewrite Z.add_0_r|].
      apply imap_ext. intros i c _. simpl. f_equal. lia.
    + lia.
Qed.

Lemma add_points_spec coords point_tag :
  add_points coords point_tag
  = (ring_points coords point_tag, point_tag + Z.of_nat (ring_size coords)).
Proof.
  unfold add_points, ring_points, ring_size.
  by rewrite add_points_fold, length_all_but_last.
Qed.

Lemma length_ring_points coords point_tag :
  length (ring_points coords point_tag) = ring_size coords.
Proof. unfold ring_points. by rewrite length_imap, length_all_but_last. Qed.

Lemma lookup_ring_points coords point_tag i :
  (i < ring_size coords)%nat →
  ∃ p, ring_points coords point_tag !! i = Some p
       ∧ Point.tag p = point_tag + Z.of_nat i.
Proof.
  intros Hi. unfold ring_points. rewrite list_lookup_imap.
  destruct (lookup_lt_is_Some_2 (all_but_last coords) i) as [c Hc].
  { by rewrite length_all_but_last. }
  rewrite Hc. simpl. eauto.
Qed.

Lemma head_ring_points coords point_tag :
  (0 < ring_size coords)%nat →
  ∃ p, ring_points coords point_tag !! 0%nat = Some p ∧ Point.tag p = point_tag.
Proof.
  intros Hn. destruct (lookup_ring_points coords point_tag 0 Hn) as (p & Hp & Ht).
  exists p. split; [done|]. rewrite Ht. simpl. lia.
Qed.

Lemma last_ring_points coords point_tag :
  (0 < ring_size coords)%nat →
  ∃ p, last (ring_points coords point_tag) = Some p
       ∧ Point.tag p = point_tag + Z.of_nat (ring_size coords - 1).
Proof.
  intros Hn.
  destruct (lookup_ring_points coords point_tag (ring_size coords - 1))
    as (p & Hp & Ht); [lia|].
  exists p. split; [|done].
  rewrite last_lookup, length_ring_points.
  by replace (Nat.pred (ring_size coords)) with (ring_size coords - 1)%nat by lia.
Qed.

(** The loop over [range(len(points_local) - 1)], stopped after [k]
    rounds. *)
Lemma add_lines_loop coords point_tag line_tag k :
  (k < ring_size coords)%nat →
  for_each
    (λ '(lines_local, line_tag) i,
       p ← index (ring_points coords point_tag) i;
       q ← index (ring_points coords point_tag) (i + 1)%nat;
       let line := Line.mk (Point.tag p) (Point.tag q) line_tag in
       Ok (lines_local ++ [line], line_tag + 1))
    ([], line_tag) (seq 0 k)
  = Ok ((λ i : nat,
           Line.mk (point_tag + Z.of_nat i) (point_tag + Z.of_nat (S i))
                   (line_tag + Z.of_nat i)) <$> seq 0 k,
        line_tag + Z.of_nat k).
Proof.
  induction k as [|k IH]; intros Hk.
  - simpl. by rewrite Z.add_0_r.
  - rewrite seq_S, for_each_app, IH by lia. simpl.
    destruct (lookup_ring_points coords point_tag k) as (p & Hp & Htp); [lia|].
    destruct (lookup_ring_points coords point_tag (k + 1)) as (q & Hq & Htq); [lia|].
    rewrite (index_lookup _ _ _ Hp), (index_lookup _ _ _ Hq). simpl.
    rewrite fmap_app. simpl. rewrite Htp, Htq, Nat.add_1_r.
    do 2 f_equal. lia.
Qed.

Lemma ring_lines_snoc n point_tag line_tag :
  ring_lines (S n) point_tag line_tag
  = ((λ i : nat,
        Line.mk (point_tag + Z.of_nat i) (point_tag + Z.of_nat (S i))
                (line_tag + Z.of_nat i)) <$> seq 0 n)
    ++ [Line.mk (point_tag + Z.of_nat n) point_tag (line_tag + Z.of_nat n)].
Proof.
  unfold ring_lines. rewrite seq_S, fmap_app. simpl. f_equal.
  - apply list_fmap_ext. intros i j Hj.
    apply lookup_seq in Hj as [-> Hj]. simpl.
    by rewrite (Nat.mod_small (S i) (S n)) by lia.
  - by rewrite Nat.Div0.mod_same, Z.add_0_r.
Qed.

Lemma add_lines_spec coords point_tag line_tag :
  (0 < ring_size coords)%nat →
  add_lines (ring_points coords point_tag) line_tag
  = Ok (ring_lines (ring_size coords) point_tag line_tag,
        line_tag + Z.of_nat (ring_size coords)).
Proof.
  intros Hn. unfold add_lines.
  rewrite length_ring_points, add_lines_loop by lia. simpl.
  destruct (last_ring_points coords point_tag Hn) as (p & Hp & Htp).
  destruct (head_ring_points coords point_tag Hn) as (q & Hq & Htq).
  unfold index_last. rewrite Hp. simpl.
  rewrite (index_lookup _ _ _ Hq). simpl. rewrite Htp, Htq.
  destruct (ring_size coords) as [|n] eqn:Hsz; [lia|].
  rewrite ring_lines_snoc. simpl. rewrite Nat.sub_0_r.
  do 2 f_equal. lia.
Qed.

Lemma length_ring_lines n point_tag line_tag :
  length (ring_lines n point_tag line_tag) = n.
Proof. unfold ring_lines. by rewrite length_fmap, length_seq. Qed.

Lemma ring_lines_tags n point_tag line_tag :
  Line.tag <$> ring_lines n point_tag line_tag = seqZ line_tag (Z.of_nat n).
Proof.
  unfold ring_lines, seqZ. rewrite Nat2Z.id, <-list_fmap_compose.
  apply list_fmap_ext. intros i j _. simpl. lia.
Qed.

Lemma ring_lines_start_tags n point_tag line_tag :
  Line.start_tag <$> ring_lines n point_tag line_tag = seqZ point_tag (Z.of_nat n).
Proof.
  unfold ring_lines, seqZ. rewrite Nat2Z.id, <-list_fmap_compose.
  apply list_fmap_ext. intros i j _. simpl. lia.
Qed.

Lemma ring_points_tags coords point_tag :
  Point.tag <$> ring_points coords point_tag
  = seqZ point_tag (Z.of_nat (ring_size coords)).
Proof.
  apply list_eq. intros i. rewrite list_lookup_fmap.
  destruct (decide (i < ring_size coords)%nat) as [Hi|Hi].
  - destruct (lookup_ring_points coords point_tag i Hi) as (p & -> & Ht).
    simpl. rewrite lookup_seqZ_lt by lia. by rewrite Ht.
  - rewrite lookup_seqZ_ge by lia.
    rewrite (lookup_ge_None_2 (ring_points _ _)); [done|].
    rewrite length_ring_points. lia.
Qed.

(** What the ring block returns, and when it raises. *)
Lemma ring_to_gmsh_entities_ok coords point_tag line_tag curve_loop_tag :
  ring_ok coords = true →
  ring_to_gmsh_entities coords point_tag line_tag curve_loop_tag
  = Ok (ring_points coords point_tag,
        ring_lines (ring_size coords) point_tag line_tag,
        ring_loop (ring_size coords) line_tag curve_loop_tag,
        point_tag + Z.of_nat (ring_size coords),
        line_tag + Z.of_nat (ring_size coords),
        curve_loop_tag + 1).
Proof.
  intros Hok. apply bool_decide_eq_true in Hok.
  unfold ring_to_gmsh_entities. rewrite add_points_spec.
  rewrite add_lines_spec by (unfold ring_size; lia). simpl.
  by rewrite ring_lines_tags.
Qed.

Lemma ring_to_gmsh_entities_raise coords point_tag line_tag curve_loop_tag :
  ring_ok coords = false →
  ring_to_gmsh_entities coords point_tag line_tag curve_loop_tag = Raise IndexError.
Proof.
  intros Hok. apply bool_decide_eq_false in Hok.
  unfold ring_to_gmsh_entities. rewrite add_points_spec.
  assert (ring_points coords point_tag = []) as ->; [|done].
  apply nil_length_inv. rewrite length_ring_points. unfold ring_size. lia.
Qed.

(** ** One polygon *)

Lemma rings_size_cons r rings :
  rings_size (r :: rings) = (ring_size r + rings_size rings)%nat.
Proof. reflexivity. Qed.

(** The loop over [polygon.interiors]. *)
Lemma interiors_loop_ok rings P L C point_tag line_tag curve_loop_tag :
  forallb ring_ok rings = true →
  for_each
    (λ '(points_total, lines_total, curve_loops, point_tag, line_tag, curve_loop_tag) loop,
       '(points_local, lines_local, curve_loop, point_tag, line_tag, curve_loop_tag) ←
         ring_to_gmsh_entities loop point_tag line_tag curve_loop_tag;
       Ok (points_total ++ points_local, lines_total ++ lines_local,
           curve_loops ++ [curve_loop], point_tag, line_tag, curve_loop_tag))
    (P, L, C, point_tag, line_tag, curve_loop_tag) rings
  = Ok (P ++ rings_points rings point_tag,
        L ++ rings_lines rings point_tag line_tag,
        C ++ rings_loops rings line_tag curve_loop_tag,
        point_tag + Z.of_nat (rings_size rings),
        line_tag + Z.of_nat (rings_size rings),
        curve_loop_tag + Z.of_nat (length rings)).
Proof.
  revert P L C point_tag line_tag curve_loop_tag.
  induction rings as [|r rings IH]; intros P L C pt lt clt Hok.
  - simpl. by rewrite !app_nil_r, !Z.add_0_r.
  - apply andb_prop in Hok as [Hr Hok]. cbn [for_each].
    rewrite ring_to_gmsh_entities_ok by done. simpl.
    rewrite IH by done. rewrite <-!app_assoc, rings_size_cons. simpl.
    solve_tags.
Qed.

Lemma interiors_loop_raise rings P L C point_tag line_tag curve_loop_tag :
  forallb ring_ok rings = false →
  for_each
    (λ '(points_total, lines_total, curve_loops, point_tag, line_tag, curve_loop_tag) loop,
       '(points_local, lines_local, curve_loop, point_tag, line_tag, curve_loop_tag) ←
         ring_to_gmsh_entities loop point_tag line_tag curve_loop_tag;
       Ok (points_total ++ points_local, lines_total ++ lines_local,
           curve_loops ++ [curve_loop], point_tag, line_tag, curve_loop_tag))
    (P, L, C, point_tag, line_tag, curve_loop_tag) rings
  = Raise IndexError.
Proof.
  revert P L C point_tag line_tag curve_loop_tag.
  induction rings as [|r rings IH]; intros P L C pt lt clt Hok; [done|].
  cbn [for_each]. simpl in Hok. destruct (ring_ok r) eqn:Hr.
  - rewrite ring_to_gmsh_entities_ok by done. simpl. by apply IH.
  - by rewrite ring_to_gmsh_entities_raise.
Qed.

Lemma rings_loops_tags rings line_tag curve_loop_tag :
  CurveLoop.tag <$> rings_loops rings line_tag curve_loop_tag
  = seqZ curve_loop_tag (Z.of_nat (length rings)).
Proof.
  revert line_tag curve_loop_tag.
  induction rings as [|r rings IH]; intros lt clt; [done|].
  cbn [rings_loops fmap list_fmap length]. rewrite IH.
  rewrite (seqZ_cons clt) by lia. simpl. do 2 f_equal; lia.
Qed.

Lemma bubble_to_gmsh_entities_ok polygon level
    point_tag line_tag curve_loop_tag plane_surface_tag :
  polygon_ok polygon = true →
  bubble_to_gmsh_entities polygon level
    point_tag line_tag curve_loop_tag plane_surface_tag
  = Ok (polygon_entities polygon level
          point_tag line_tag curve_loop_tag plane_surface_tag,
        point_tag + Z.of_nat (rings_size (polygon_rings polygon)),
        line_tag + Z.of_nat (rings_size (polygon_rings polygon)),
        curve_loop_tag + Z.of_nat (length (polygon_rings polygon)),
        plane_surface_tag + 1).
Proof.
  intros Hok. apply andb_prop in Hok as [Hext Hint].
  unfold bubble_to_gmsh_entities.
  rewrite ring_to_gmsh_entities_ok by done. simpl.
  rewrite interiors_loop_ok by done. simpl.
  unfold polygon_entities, polygon_rings.
  rewrite rings_size_cons, rings_loops_tags.
  rewrite (seqZ_cons curve_loop_tag) by (simpl; lia).
  cbn [rings_points rings_lines rings_loops length].
  replace (Z.pred (Z.of_nat (S (length (interiors polygon)))))
    with (Z.of_nat (length (interiors polygon))) by lia.
  replace (Z.succ curve_loop_tag) with (curve_loop_tag + 1) by lia.
  solve_tags.
Qed.

Lemma bubble_to_gmsh_entities_raise polygon level
    point_tag line_tag curve_loop_tag plane_surface_tag :
  polygon_ok polygon = false →
  bubble_to_gmsh_entities polygon level
    point_tag line_tag curve_loop_tag plane_surface_tag
  = Raise IndexError.
Proof.
  unfold polygon_ok. simpl. intros Hok. unfold bubble_to_gmsh_entities.
  destruct (ring_ok (exterior polygon)) eqn:Hext.
  - rewrite ring_to_gmsh_entities_ok by done. simpl.
    by rewrite interiors_loop_raise.
  - by rewrite ring_to_gmsh_entities_raise.
Qed.

(** ** The loop over the regions *)

Local Arguments polygon_rings : simpl never.

Lemma non_holes_cons_keep holes polygon level bubbles :
  level ∉ holes →
  non_holes holes ((polygon, level) :: bubbles)
  = (polygon, level) :: non_holes holes bubbles.
Proof. intros H. unfold non_holes. by rewrite filter_cons_True. Qed.

Lemma non_holes_cons_skip holes polygon level bubbles :
  level ∈ holes →
  non_holes holes ((polygon, level) :: bubbles) = non_holes holes bubbles.
Proof.
  intros H. unfold non_holes. rewrite filter_cons_False; [done|].
  simpl. by intros [].
Qed.

Lemma bubbles_size_cons polygon level bubbles :
  bubbles_size ((polygon, level) :: bubbles)
  = (rings_size (polygon_rings polygon) + bubbles_size bubbles)%nat.
Proof. reflexivity. Qed.

Lemma bubbles_rings_cons polygon level bubbles :
  bubbles_rings ((polygon, level) :: bubbles)
  = (length (polygon_rings polygon) + bubbles_rings bubbles)%nat.
Proof. reflexivity. Qed.

Lemma compile_bubbles_loop_ok holes bubbles E
    point_tag line_tag curve_loop_tag plane_surface_tag :
  bubbles_ok (non_holes holes bubbles) = true →
  for_each
    (λ '(all_entities_list, point_tag, line_tag, curve_loop_tag, plane_surface_tag)
       '(polygon, level),
       if bool_decide (level ∉ holes) then
         '(gmsh_entities, point_tag, line_tag, curve_loop_tag, plane_surface_tag) ←
           bubble_to_gmsh_entities polygon level
             point_tag line_tag curve_loop_tag plane_surface_tag;
         Ok (all_entities_list ++ [gmsh_entities],
             point_tag, line_tag, curve_loop_tag, plane_surface_tag)
       else
         Ok (all_entities_list, point_tag, line_tag, curve_loop_tag, plane_surface_tag))
    (E, point_tag, line_tag, curve_loop_tag, plane_surface_tag) bubbles
  = Ok (E ++ bubbles_entities (non_holes holes bubbles)
               point_tag line_tag curve_loop_tag plane_surface_tag,
        point_tag + Z.of_nat (bubbles_size (non_holes holes bubbles)),
        line_tag + Z.of_nat (bubbles_size (non_holes holes bubbles)),
        curve_loop_tag + Z.of_nat (bubbles_rings (non_holes holes bubbles)),
        plane_surface_tag + Z.of_nat (length (non_holes holes bubbles))).
Proof.
  revert E point_tag line_tag curve_loop_tag plane_surface_tag.
  induction bubbles as [|[polygon level] bubbles IH]; intros E pt lt clt pst Hok.
  - simpl. rewrite app_nil_r, !Z.add_0_r. done.
  - cbn [for_each]. case_bool_decide as Hlevel.
    + rewrite non_holes_cons_keep in Hok |- * by done.
      apply andb_prop in Hok as [Hp Hok]. simpl in Hp.
      rewrite bubble_to_gmsh_entities_ok by done. simpl.
      rewrite IH by done.
      rewrite <-app_assoc, bubbles_size_cons, bubbles_rings_cons.
      cbn [bubbles_entities app]. solve_tags.
      unfold polygon_rings. simpl. lia.
    + rewrite non_holes_cons_skip in Hok |- * by done. simpl. by apply IH.
Qed.

Lemma compile_bubbles_loop_raise holes bubbles E
    point_tag line_tag curve_loop_tag plane_surface_tag :
  bubbles_ok (non_holes holes bubbles) = false →
  for_each
    (λ '(all_entities_list, point_tag, line_tag, curve_loop_tag, plane_surface_tag)
       '(polygon, level),
       if bool_decide (level ∉ holes) then
         '(gmsh_entities, point_tag, line_tag, curve_loop_tag, plane_surface_tag) ←
           bubble_to_gmsh_entities polygon level
             point_tag line_tag curve_loop_tag plane_surface_tag;
         Ok (all_entities_list ++ [gmsh_entities],
             point_tag, line_tag, curve_loop_tag, plane_surface_tag)
       else
         Ok (all_entities_list, point_tag, line_tag, curve_loop_tag, plane_surface_tag))
    (E, point_tag, line_tag, curve_loop_tag, plane_surface_tag) bubbles
  = Raise IndexError.
Proof.
  revert E point_tag line_tag curve_loop_tag plane_surface_tag.
  induction bubbles as [|[polygon level] bubbles IH]; intros E pt lt clt pst Hok;
    [done|].
  cbn [for_each]. case_bool_decide as Hlevel.
  - rewrite non_holes_cons_keep in Hok by done. simpl in Hok.
    destruct (polygon_ok polygon) eqn:Hp.
    + rewrite bubble_to_gmsh_entities_ok by done. simpl. by apply IH.
    + by rewrite bubble_to_gmsh_entities_raise.
  - rewrite non_holes_cons_skip in Hok by done. simpl. by apply IH.
Qed.

Lemma compile_bubbles_ok holes bubbles
    point_tag line_tag curve_loop_tag plane_surface_tag :
  bubbles_ok (non_holes holes bubbles) = true →
  compile_bubbles holes bubbles point_tag line_tag curve_loop_tag plane_surface_tag
  = Ok (bubbles_entities (non_holes holes bubbles)
          point_tag line_tag curve_loop_tag plane_surface_tag,
        point_tag + Z.of_nat (bubbles_size (non_holes holes bubbles)),
        line_tag + Z.of_nat (bubbles_size (non_holes holes bubbles)),
        curve_loop_tag + Z.of_nat (bubbles_rings (non_holes holes bubbles)),
        plane_surface_tag + Z.of_nat (length (non_holes holes bubbles))).
Proof. intros Hok. unfold compile_bubbles. by rewrite compile_bubbles_loop_ok. Qed.

Lemma compile_bubbles_raise holes bubbles
    point_tag line_tag curve_loop_tag plane_surface_tag :
  bubbles_ok (non_holes holes bubbles) = false →
  compile_bubbles holes bubbles point_tag line_tag curve_loop_tag plane_surface_tag
  = Raise IndexError.
Proof. intros Hok. unfold compile_bubbles. by rewrite compile_bubbles_loop_raise. Qed.

(** ** Sorting and grouping by key *)

Section by_key.
Context {A : Type} (key : A → Z).

Global Instance key_le_trans : Transitive (key_le key).
Proof. unfold key_le. intros a b c. lia. Qed.

Lemma insert_by_key_perm a l : insert_by_key key a l ≡ₚ a :: l.
Proof.
  induction l as [|b l IH]; simpl; [done|].
  case_bool_decide; [done|]. by rewrite IH, Permutation_swap.
Qed.

Lemma sort_by_key_perm l : sort_by_key key l ≡ₚ l.
Proof.
  induction l as [|a l IH]; simpl; [done|].
  rewrite insert_by_key_perm. by f_equiv.
Qed.

Lemma insert_by_key_sorted a l :
  Sorted (key_le key) l → Sorted (key_le key) (insert_by_key key a l).
Proof.
  induction 1 as [|b l Hl IH Hb]; simpl.
  - by repeat constructor.
  - case_bool_decide as Hab.
    + constructor; [by constructor|]. by constructor.
    + constructor; [done|].
      destruct Hb as [|c l Hbc]; simpl.
      * constructor. unfold key_le. lia.
      * case_bool_decide; constructor; [|done]. unfold key_le. lia.
Qed.

Lemma sort_by_key_sorted l : StronglySorted (key_le key) (sort_by_key key l).
Proof.
  apply Sorted_StronglySorted; [apply _|].
  induction l as [|a l IH]; simpl; [constructor|].
  by apply insert_by_key_sorted.
Qed.

Lemma elem_of_sort_by_key a l : a ∈ sort_by_key key l ↔ a ∈ l.
Proof. by rewrite sort_by_key_perm. Qed.

(** The first run starts with the first item. *)
Lemma groupby_cons a l :
  ∃ g groups, groupby key (a :: l) = (key a, a :: g) :: groups.
Proof.
  simpl. destruct (groupby key l) as [|[k g] groups]; [by eauto|].
  case_bool_decide as Hk; [|by eauto]. rewrite <-Hk. eauto.
Qed.

(** The runs, put together again, are the list. *)
Lemma groupby_join l : mjoin (groupby key l).*2 = l.
Proof.
  induction l as [|a l IH]; simpl; [done|].
  destruct (groupby key l) as [|[k g] groups]; simpl in *.
  - by rewrite <-IH.
  - case_bool_decide; simpl; by rewrite <-IH.
Qed.

(** Every run is non-empty and its items all have the run's key. *)
Lemma groupby_runs l :
  Forall (λ kg, kg.2 ≠ [] ∧ Forall (λ a, key a = kg.1) kg.2) (groupby key l).
Proof.
  induction l as [|a l IH]; simpl; [constructor|].
  destruct (groupby key l) as [|[k g] groups]; simpl in *.
  - repeat constructor. done.
  - apply Forall_cons in IH as [[Hg Hk] IH]. simpl in *.
    case_bool_decide; repeat constructor; simpl; done.
Qed.

Lemma elem_of_groupby a l :
  a ∈ l ↔ ∃ kg, kg ∈ groupby key l ∧ a ∈ kg.2.
Proof.
  rewrite <-(groupby_join l) at 1. rewrite list_elem_of_join. split.
  - intros (g & Ha & Hg). apply list_elem_of_fmap in Hg as (kg & -> & Hkg). eauto.
  - intros (kg & Hkg & Ha). exists kg.2. split; [done|].
    by apply list_elem_of_fmap_2.
Qed.

Lemma groupby_key_of kg a l :
  kg ∈ groupby key l → a ∈ kg.2 → key a = kg.1.
Proof.
  intros Hkg Ha. pose proof (groupby_runs l) as Hruns.
  rewrite Forall_forall in Hruns. destruct (Hruns kg Hkg) as [_ Hk].
  rewrite Forall_forall in Hk. by apply Hk.
Qed.

Lemma groupby_Forall (P : A → Prop) l :
  Forall P l → Forall (λ kg, Forall P kg.2) (groupby key l).
Proof.
  rewrite !Forall_forall. intros HP kg Hkg.
  rewrite Forall_forall. intros a Ha. apply HP, elem_of_groupby. eauto.
Qed.

(** On a sorted list the runs have strictly increasing keys. *)
Lemma groupby_sorted_keys l :
  StronglySorted (key_le key) l → StronglySorted Z.lt (groupby key l).*1.
Proof.
  induction 1 as [|a l Hl IH Ha]; [constructor|].
  destruct l as [|b l]; [simpl; repeat constructor|].
  destruct (groupby_cons b l) as (g & groups & Hg).
  cbn [groupby]. cbn [groupby] in Hg. cbn [groupby] in IH.
  rewrite Hg in IH |- *. simpl in IH.
  case_bool_decide as Hk; [done|].
  apply Forall_cons in Ha as [Hab _]. unfold key_le in Hab.
  simpl. constructor; [done|].
  apply StronglySorted_inv in IH as [_ IH].
  constructor; [lia|].
  eapply Forall_impl; [done|]. simpl. lia.
Qed.

Lemma StronglySorted_lt_NoDup (ks : list Z) : StronglySorted Z.lt ks → NoDup ks.
Proof.
  induction 1 as [|k ks _ IH Hk]; constructor; [|done].
  rewrite Forall_forall in Hk. intros Hin. specialize (Hk _ Hin). lia.
Qed.

Lemma groupby_sort_NoDup l : NoDup (groupby key (sort_by_key key l)).*1.
Proof.
  apply StronglySorted_lt_NoDup, groupby_sorted_keys, sort_by_key_sorted.
Qed.
End by_key.

(** ** Merging the physical groups *)

Lemma comprehension_first_entity g :
  Forall single_entity g →
  comprehension (λ s, index (PhysicalGroup.entity_tags s) 0) g
  = Ok (g ≫= PhysicalGroup.entity_tags).
Proof.
  induction 1 as [|s g [t Ht] _ IH]; [done|].
  cbn [comprehension]. rewrite IH, bind_cons, Ht. done.
Qed.

Lemma merge_loop groups acc :
  Forall (λ kg : Z * list PhysicalGroup.t, Forall single_entity kg.2) groups →
  for_each
    (λ physical_groups_merged '(tag, physical_group),
       entity_tags ←
         comprehension (λ s, index (PhysicalGroup.entity_tags s) 0) physical_group;
       Ok (physical_groups_merged ++ [PhysicalGroup.mk two entity_tags tag]))
    acc groups
  = Ok (acc ++ (merge_group <$> groups)).
Proof.
  intros Hgroups. revert acc.
  induction Hgroups as [|[k g] groups Hg _ IH]; intros acc.
  - simpl. by rewrite app_nil_r.
  - cbn [for_each]. rewrite comprehension_first_entity by done. simpl.
    rewrite IH, <-app_assoc. done.
Qed.

Lemma bubbles_groups_single bubbles plane_surface_tag :
  Forall single_entity (bubbles_groups bubbles plane_surface_tag).
Proof.
  revert plane_surface_tag.
  induction bubbles as [|[polygon level] bubbles IH]; intros pst; simpl;
    constructor; [by eexists|apply IH].
Qed.

Lemma comprehension_first_group bubbles
    point_tag line_tag curve_loop_tag plane_surface_tag :
  comprehension (λ e, index (physical_groups e) 0)
    (bubbles_entities bubbles point_tag line_tag curve_loop_tag plane_surface_tag)
  = Ok (bubbles_groups bubbles plane_surface_tag).
Proof.
  revert point_tag line_tag curve_loop_tag plane_surface_tag.
  induction bubbles as [|[polygon level] bubbles IH]; intros pt lt clt pst; [done|].
  cbn [bubbles_entities bubbles_groups comprehension]. rewrite IH. done.
Qed.

Lemma merge_physical_groups_ok bubbles
    point_tag line_tag curve_loop_tag plane_surface_tag :
  merge_physical_groups
    (bubbles_entities bubbles point_tag line_tag curve_loop_tag plane_surface_tag)
  = Ok (merged_groups (bubbles_groups bubbles plane_surface_tag)).
Proof.
  unfold merge_physical_groups. rewrite comprehension_first_group. simpl.
  rewrite merge_loop; [done|].
  apply groupby_Forall. rewrite Forall_forall. intros s Hs.
  apply elem_of_sort_by_key in Hs. revert s Hs. rewrite <-Forall_forall.
  apply bubbles_groups_single.
Qed.

(** ** The whole run *)

(** The run succeeds exactly when every non-hole polygon can be compiled,
    and then returns [topology_entities]. *)
Lemma topology_to_gmsh_entities_ok topo :
  bubbles_ok (non_holes (holes topo) (flatten topo)) = true →
  topology_to_gmsh_entities topo = Ok (topology_entities topo).
Proof.
  intros Hok. unfold topology_to_gmsh_entities.
  rewrite compile_bubbles_ok by done. simpl.
  by rewrite merge_physical_groups_ok.
Qed.

Lemma topology_to_gmsh_entities_raise topo :
  bubbles_ok (non_holes (holes topo) (flatten topo)) = false →
  topology_to_gmsh_entities topo = Raise IndexError.
Proof.
  intros Hok. unfold topology_to_gmsh_entities.
  by rewrite compile_bubbles_raise.
Qed.

Lemma topology_to_gmsh_entities_inv topo e :
  topology_to_gmsh_entities topo = Ok e →
  bubbles_ok (non_holes (holes topo) (flatten topo)) = true
  ∧ e = topology_entities topo.
Proof.
  intros He.
  destruct (bubbles_ok (non_holes (holes topo) (flatten topo))) eqn:Hok.
  - rewrite topology_to_gmsh_entities_ok in He by done. by inversion He.
  - by rewrite topology_to_gmsh_entities_raise in He.
Qed.

(** ** Tags of the compiled entities *)

Lemma rings_points_tags rings point_tag :
  Point.tag <$> rings_points rings point_tag
  = seqZ point_tag (Z.of_nat (rings_size rings)).
Proof.
  revert point_tag. induction rings as [|r rings IH]; intros pt; [done|].
  cbn [rings_points]. rewrite fmap_app, ring_points_tags, IH, rings_size_cons.
  rewrite Nat2Z.inj_add, seqZ_app by lia. done.
Qed.

Lemma rings_lines_tags rings point_tag line_tag :
  Line.tag <$> rings_lines rings point_tag line_tag
  = seqZ line_tag (Z.of_nat (rings_size rings)).
Proof.
  revert point_tag line_tag.
  induction rings as [|r rings IH]; intros pt lt; [done|].
  cbn [rings_lines]. rewrite fmap_app, ring_lines_tags, IH, rings_size_cons.
  rewrite Nat2Z.inj_add, seqZ_app by lia. done.
Qed.

Lemma bubbles_points_tags bubbles point_tag line_tag curve_loop_tag plane_surface_tag :
  Point.tag <$>
    (bubbles_entities bubbles point_tag line_tag curve_loop_tag plane_surface_tag
     ≫= points)
  = seqZ point_tag (Z.of_nat (bubbles_size bubbles)).
Proof.
  revert point_tag line_tag curve_loop_tag plane_surface_tag.
  induction bubbles as [|[polygon level] bubbles IH]; intros pt lt clt pst; [done|].
  cbn [bubbles_entities]. rewrite bind_cons, fmap_app, IH, bubbles_size_cons.
  cbn [polygon_entities points]. rewrite rings_points_tags.
  rewrite Nat2Z.inj_add, seqZ_app by lia. done.
Qed.

Lemma bubbles_lines_tags bubbles point_tag line_tag curve_loop_tag plane_surface_tag :
  Line.tag <$>
    (bubbles_entities bubbles point_tag line_tag curve_loop_tag plane_surface_tag
     ≫= lines)
  = seqZ line_tag (Z.of_nat (bubbles_size bubbles)).
Proof.
  revert point_tag line_tag curve_loop_tag plane_surface_tag.
  induction bubbles as [|[polygon level] bubbles IH]; intros pt lt clt pst; [done|].
  cbn [bubbles_entities]. rewrite bind_cons, fmap_app, IH, bubbles_size_cons.
  cbn [polygon_entities lines]. rewrite rings_lines_tags.
  rewrite Nat2Z.inj_add, seqZ_app by lia. done.
Qed.

Lemma bubbles_loops_tags bubbles point_tag line_tag curve_loop_tag plane_surface_tag :
  CurveLoop.tag <$>
    (bubbles_entities bubbles point_tag line_tag curve_loop_tag plane_surface_tag
     ≫= curve_loops)
  = seqZ curve_loop_tag (Z.of_nat (bubbles_rings bubbles)).
Proof.
  revert point_tag line_tag curve_loop_tag plane_surface_tag.
  induction bubbles as [|[polygon level] bubbles IH]; intros pt lt clt pst; [done|].
  cbn [bubbles_entities]. rewrite bind_cons, fmap_app, IH, bubbles_rings_cons.
  cbn [polygon_entities curve_loops]. rewrite rings_loops_tags.
  rewrite Nat2Z.inj_add, seqZ_app by lia. done.
Qed.

Lemma bubbles_surfaces_tags bubbles point_tag line_tag curve_loop_tag plane_surface_tag :
  PlaneSurface.tag <$>
    (bubbles_entities bubbles point_tag line_tag curve_loop_tag plane_surface_tag
     ≫= plane_surfaces)
  = seqZ plane_surface_tag (Z.of_nat (length bubbles)).
Proof.
  revert point_tag line_tag curve_loop_tag plane_surface_tag.
  induction bubbles as [|[polygon level] bubbles IH]; intros pt lt clt pst; [done|].
  cbn [bubbles_entities]. rewrite bind_cons, fmap_app, IH.
  cbn [polygon_entities plane_surfaces fmap list_fmap app length].
  rewrite (seqZ_cons pst) by lia. do 2 f_equal; lia.
Qed.

(** A tag list that is a [seqZ] is the range of its own length. *)
Lemma seqZ_own_length {A} (tag : A → Z) (l : list A) m n :
  tag <$> l = seqZ m (Z.of_nat n) →
  tag <$> l = seqZ m (Z.of_nat (length l)) ∧ NoDup (tag <$> l).
Proof.
  intros H. split; [|rewrite H; apply NoDup_seqZ].
  rewrite H. f_equal. apply (f_equal length) in H.
  rewrite length_fmap, length_seqZ in H. lia.
Qed.

(** ** The coordinates of the points *)

Lemma ring_points_planar coords point_tag :
  Forall planar_default_point (ring_points coords point_tag).
Proof.
  rewrite Forall_forall. intros p Hp.
  apply list_elem_of_lookup in Hp as [i Hp]. unfold ring_points in Hp.
  rewrite list_lookup_imap in Hp.
  destruct (all_but_last coords !! i) as [c|]; [|done].
  simpl in Hp. by inversion Hp.
Qed.

Lemma rings_points_planar rings point_tag :
  Forall planar_default_point (rings_points rings point_tag).
Proof.
  revert point_tag. induction rings as [|r rings IH]; intros pt; simpl.
  - constructor.
  - apply Forall_app. split; [apply ring_points_planar|apply IH].
Qed.

Lemma bubbles_points_planar bubbles point_tag line_tag curve_loop_tag plane_surface_tag :
  Forall planar_default_point
    (bubbles_entities bubbles point_tag line_tag curve_loop_tag plane_surface_tag
     ≫= points).
Proof.
  revert point_tag line_tag curve_loop_tag plane_surface_tag.
  induction bubbles as [|[polygon level] bubbles IH]; intros pt lt clt pst.
  - constructor.
  - cbn [bubbles_entities]. rewrite bind_cons. apply Forall_app.
    split; [apply rings_points_planar|apply IH].
Qed.

Lemma bubble_to_gmsh_entities_inv polygon level
    point_tag line_tag curve_loop_tag plane_surface_tag r :
  bubble_to_gmsh_entities polygon level
    point_tag line_tag curve_loop_tag plane_surface_tag = Ok r →
  polygon_ok polygon = true
  ∧ r = (polygon_entities polygon level
           point_tag line_tag curve_loop_tag plane_surface_tag,
         point_tag + Z.of_nat (rings_size (polygon_rings polygon)),
         line_tag + Z.of_nat (rings_size (polygon_rings polygon)),
         curve_loop_tag + Z.of_nat (length (polygon_rings polygon)),
         plane_surface_tag + 1).
Proof.
  intros Hr. destruct (polygon_ok polygon) eqn:Hok.
  - rewrite bubble_to_gmsh_entities_ok in Hr by done. by inversion Hr.
  - by rewrite bubble_to_gmsh_entities_raise in Hr.
Qed.

Lemma non_holes_nil holes bubbles :
  Forall (λ b : Polygon * Z, b.2 ∈ holes) bubbles → non_holes holes bubbles = [].
Proof.
  induction 1 as [|[polygon level] bubbles Hb _ IH]; [done|].
  by rewrite non_holes_cons_skip.
Qed.

(** ** The lines of a ring, by position *)

Lemma lookup_ring_lines n point_tag line_tag i :
  (i < n)%nat →
  ring_lines n point_tag line_tag !! i
  = Some (Line.mk (point_tag + Z.of_nat i) (point_tag + Z.of_nat (S i mod n))
                  (line_tag + Z.of_nat i)).
Proof.
  intros Hi. unfold ring_lines.
  by rewrite list_lookup_fmap, lookup_seq_lt by done.
Qed.

Lemma ring_lines_cycle n point_tag line_tag i l l' :
  ring_lines n point_tag line_tag !! i = Some l →
  ring_lines n point_tag line_tag !! (S i mod n)%nat = Some l' →
  Line.end_tag l = Line.start_tag l'.
Proof.
  intros Hl Hl'.
  assert (i < n)%nat as Hi.
  { apply lookup_lt_Some in Hl. by rewrite length_ring_lines in Hl. }
  rewrite lookup_ring_lines in Hl by done.
  rewrite lookup_ring_lines in Hl' by (apply Nat.mod_upper_bound; lia).
  inversion Hl. inversion Hl'. done.
Qed.

Lemma lookup_ring_points_coord coords point_tag i x y :
  all_but_last coords !! i = Some (x, y) →
  ring_points coords point_tag !! i
  = Some (Point.mk x y z_planar lc_default (point_tag + Z.of_nat i)).
Proof. intros Hc. unfold ring_points. by rewrite list_lookup_imap, Hc. Qed.

Lemma ring_size_snoc (cs : ring) c : ring_size (cs ++ [c]) = length cs.
Proof. unfold ring_size. rewrite length_app. simpl. lia. Qed.

(** ** Curve loops, plane surfaces and groups, by position *)

Lemma lookup_rings_loops rings line_tag curve_loop_tag i r :
  rings !! i = Some r →
  ∃ line_tag',
    rings_loops rings line_tag curve_loop_tag !! i
    = Some (ring_loop (ring_size r) line_tag' (curve_loop_tag + Z.of_nat i)).
Proof.
  revert line_tag curve_loop_tag i.
  induction rings as [|r0 rings IH]; intros lt clt [|i] Hr; simplify_eq/=.
  - exists lt. by rewrite Z.add_0_r.
  - destruct (IH (lt + Z.of_nat (ring_size r0)) (clt + 1) i Hr) as [lt' ->].
    exists lt'. do 2 f_equal. lia.
Qed.

Lemma length_rings_loops rings line_tag curve_loop_tag :
  length (rings_loops rings line_tag curve_loop_tag) = length rings.
Proof.
  revert line_tag curve_loop_tag.
  induction rings as [|r rings IH]; intros lt clt; simpl; [done|]. by rewrite IH.
Qed.

Lemma length_bubbles_groups bubbles plane_surface_tag :
  length (bubbles_groups bubbles plane_surface_tag) = length bubbles.
Proof.
  revert plane_surface_tag.
  induction bubbles as [|[polygon level] bubbles IH]; intros pst; simpl; [done|].
  by rewrite IH.
Qed.

Lemma lookup_bubbles_groups bubbles plane_surface_tag i polygon level :
  bubbles !! i = Some (polygon, level) →
  bubbles_groups bubbles plane_surface_tag !! i
  = Some (PhysicalGroup.mk two [plane_surface_tag + Z.of_nat i] (level + 1)).
Proof.
  revert plane_surface_tag i.
  induction bubbles as [|[p0 l0] bubbles IH]; intros pst [|i] Hb; simplify_eq/=.
  - by rewrite Z.add_0_r.
  - rewrite (IH (pst + 1) i Hb). do 3 f_equal. lia.
Qed.

Lemma lookup_bubbles_groups_inv bubbles plane_surface_tag i s :
  bubbles_groups bubbles plane_surface_tag !! i = Some s →
  ∃ polygon level,
    bubbles !! i = Some (polygon, level)
    ∧ s = PhysicalGroup.mk two [plane_surface_tag + Z.of_nat i] (level + 1).
Proof.
  intros Hs.
  destruct (lookup_lt_is_Some_2 bubbles i) as [[polygon level] Hb].
  { apply lookup_lt_Some in Hs. by rewrite length_bubbles_groups in Hs. }
  exists polygon, level. split; [done|].
  rewrite (lookup_bubbles_groups _ _ _ _ _ Hb) in Hs. by inversion Hs.
Qed.

Lemma lookup_bubbles_surfaces bubbles
    point_tag line_tag curve_loop_tag plane_surface_tag i polygon level :
  bubbles !! i = Some (polygon, level) →
  ∃ curve_loop_tag',
    (bubbles_entities bubbles point_tag line_tag curve_loop_tag plane_surface_tag
     ≫= plane_surfaces) !! i
    = Some (PlaneSurface.mk
              (seqZ curve_loop_tag' (Z.of_nat (length (polygon_rings polygon))))
              (plane_surface_tag + Z.of_nat i)).
Proof.
  revert point_tag line_tag curve_loop_tag plane_surface_tag i.
  induction bubbles as [|[p0 l0] bubbles IH]; intros pt lt clt pst [|i] Hb;
    simplify_eq/=.
  - exists clt. by rewrite Z.add_0_r.
  - edestruct IH as [clt' ->]; [done|]. exists clt'. do 2 f_equal. lia.
Qed.

(** ** The merged groups *)

Lemma merged_groups_tags groups :
  PhysicalGroup.tag <$> merged_groups groups
  = (groupby PhysicalGroup.tag (sort_by_key PhysicalGroup.tag groups)).*1.
Proof.
  unfold merged_groups. rewrite <-list_fmap_compose.
  by apply list_fmap_ext.
Qed.

Lemma merged_groups_NoDup groups :
  NoDup (PhysicalGroup.tag <$> merged_groups groups).
Proof. rewrite merged_groups_tags. apply groupby_sort_NoDup. Qed.

(** Every record ends up in the merged group of its tag. *)
Lemma merged_groups_complete groups s :
  s ∈ groups →
  ∃ m, m ∈ merged_groups groups
       ∧ PhysicalGroup.tag m = PhysicalGroup.tag s
       ∧ ∀ t, t ∈ PhysicalGroup.entity_tags s → t ∈ PhysicalGroup.entity_tags m.
Proof.
  intros Hs. apply (elem_of_sort_by_key PhysicalGroup.tag) in Hs.
  apply (elem_of_groupby PhysicalGroup.tag) in Hs as (kg & Hkg & Hs).
  exists (merge_group kg). split; [by apply list_elem_of_fmap_2|].
  split; [symmetry; by eapply groupby_key_of|].
  intros t Ht. simpl. apply list_elem_of_bind. eauto.
Qed.

(** A merged group holds only entities of records with its tag. *)
Lemma merged_groups_sound groups m t :
  m ∈ merged_groups groups →
  t ∈ PhysicalGroup.entity_tags m →
  ∃ s, s ∈ groups
       ∧ PhysicalGroup.tag s = PhysicalGroup.tag m
       ∧ t ∈ PhysicalGroup.entity_tags s.
Proof.
  intros Hm Ht. apply list_elem_of_fmap in Hm as (kg & -> & Hkg).
  simpl in Ht. apply list_elem_of_bind in Ht as (s & Ht & Hs).
  exists s. split; [|split; [by eapply groupby_key_of|done]].
  apply (elem_of_sort_by_key PhysicalGroup.tag).
  apply (elem_of_groupby PhysicalGroup.tag). eauto.
Qed.

(** A merged group is made of at least one record. *)
Lemma merged_groups_origin groups m :
  m ∈ merged_groups groups →
  ∃ s, s ∈ groups ∧ PhysicalGroup.tag s = PhysicalGroup.tag m.
Proof.
  intros Hm. apply list_elem_of_fmap in Hm as (kg & -> & Hkg).
  pose proof (groupby_runs PhysicalGroup.tag
                (sort_by_key PhysicalGroup.tag groups)) as Hruns.
  rewrite Forall_forall in Hruns. destruct (Hruns kg Hkg) as [Hne Hk].
  destruct kg as [k [|s g]]; [done|]. exists s. simpl in *. split.
  - apply (elem_of_sort_by_key PhysicalGroup.tag).
    apply (elem_of_groupby PhysicalGroup.tag). exists (k, s :: g).
    split; [done|]. simpl. left.
  - by apply Forall_cons in Hk as [Hk _].
Qed.

(** Records of one list with duplicate-free tags are equal when their
    tags are. *)
Lemma NoDup_fmap_elem_eq {A} (f : A → Z) (l : list A) a b :
  NoDup (f <$> l) → a ∈ l → b ∈ l → f a = f b → a = b.
Proof.
  induction l as [|c l IH]; intros Hnd Ha Hb Hab; [by apply elem_of_nil in Ha|].
  rewrite fmap_cons in Hnd. apply NoDup_cons in Hnd as [Hc Hnd].
  apply elem_of_cons in Ha as [->|Ha]; apply elem_of_cons in Hb as [->|Hb].
  - done.
  - destruct Hc. rewrite Hab. by apply list_elem_of_fmap_2.
  - destruct Hc. rewrite <-Hab. by apply list_elem_of_fmap_2.
  - by apply IH.
Qed.

(** ** What a run depends on *)

Lemma non_holes_app holes l1 l2 :
  non_holes holes (l1 ++ l2) = non_holes holes l1 ++ non_holes holes l2.
Proof. apply filter_app. Qed.

Lemma elem_of_non_holes holes bubbles polygon level :
  (polygon, level) ∈ non_holes holes bubbles
  ↔ (level ∉ holes) ∧ (polygon, level) ∈ bubbles.
Proof. unfold non_holes. by rewrite list_elem_of_filter. Qed.

(** Two topologies with the same non-hole regions compile alike. *)
Lemma topology_to_gmsh_entities_non_holes t1 t2 :
  non_holes (holes t1) (flatten t1) = non_holes (holes t2) (flatten t2) →
  topology_to_gmsh_entities t1 = topology_to_gmsh_entities t2.
Proof.
  intros Heq. destruct (bubbles_ok (non_holes (holes t1) (flatten t1))) eqn:Hok.
  - rewrite !topology_to_gmsh_entities_ok by (by rewrite <-?Heq).
    unfold topology_entities. by rewrite Heq.
  - by rewrite !topology_to_gmsh_entities_raise by (by rewrite <-?Heq).
Qed.

Lemma elem_of_bubbles_groups bubbles plane_surface_tag s :
  s ∈ bubbles_groups bubbles plane_surface_tag →
  ∃ polygon level,
    (polygon, level) ∈ bubbles ∧ PhysicalGroup.tag s = level + 1.
Proof.
  intros Hs. apply list_elem_of_lookup in Hs as [i Hi].
  apply lookup_bubbles_groups_inv in Hi as (polygon & level & Hi & ->).
  exists polygon, level. split; [|done]. by eapply list_elem_of_lookup_2.
Qed.

Lemma length_bubbles_surfaces bubbles
    point_tag line_tag curve_loop_tag plane_surface_tag :
  length ((bubbles_entities bubbles
              point_tag line_tag curve_loop_tag plane_surface_tag)
          ≫= plane_surfaces)
  = length bubbles.
Proof.
  pose proof (bubbles_surfaces_tags bubbles point_tag line_tag curve_loop_tag
                plane_surface_tag) as H.
  apply (f_equal length) in H. rewrite length_fmap, length_seqZ in H. lia.
Qed.

(** ** When a run raises *)

Lemma ring_ok_false (r : ring) : ring_ok r = false ↔ all_but_last r = [].
Proof.
  unfold ring_ok. rewrite bool_decide_eq_false. split.
  - intros Hr. apply nil_length_inv. rewrite length_all_but_last. lia.
  - intros Hr. apply (f_equal length) in Hr.
    rewrite length_all_but_last in Hr. simpl in Hr. lia.
Qed.

Lemma polygon_ok_false polygon :
  polygon_ok polygon = false
  ↔ ∃ r, r ∈ polygon_rings polygon ∧ all_but_last r = [].
Proof.
  unfold polygon_ok. fold (polygon_rings polygon).
  induction (polygon_rings polygon) as [|r rings IH]; simpl.
  - split; [done|]. intros (r & Hr & _). by apply elem_of_nil in Hr.
  - rewrite andb_false_iff, IH, ring_ok_false. split.
    + intros [Hr|(r' & Hr' & Hnil)]; [exists r|exists r'];
        (split; [|done]); [left|by right].
    + intros (r' & Hr' & Hnil).
      apply elem_of_cons in Hr' as [->|Hr']; [by left|right; eauto].
Qed.

Lemma bubbles_ok_false bubbles :
  bubbles_ok bubbles = false
  ↔ ∃ polygon level r,
      (polygon, level) ∈ bubbles ∧ r ∈ polygon_rings polygon
      ∧ all_but_last r = [].
Proof.
  unfold bubbles_ok. induction bubbles as [|[polygon level] bubbles IH]; simpl.
  - split; [done|]. intros (p & l & r & Hp & _). by apply elem_of_nil in Hp.
  - rewrite andb_false_iff, IH, polygon_ok_false. split.
    + intros [(r & Hr & Hnil)|(p & l & r & Hp & Hr & Hnil)].
      * exists polygon, level, r. split; [left|done].
      * exists p, l, r. split; [by right|done].
    + intros (p & l & r & Hp & Hr & Hnil).
      apply elem_of_cons in Hp as [Heq|Hp].
      * inversion Heq; subst. left. eauto.
      * right. eauto 7.
Qed.

(** * The properties of the compiler *)

(** C1. In every run that returns, the tags of the points, of the lines,
    of the curve loops and of the plane surfaces are, in creation order,
    1, 2, ..., N for the N entities of the kind, hence pairwise distinct,
    without gap and without reuse across regions. *)
Theorem tags_contiguous_from_one topo e :
  topology_to_gmsh_entities topo = Ok e →
  (Point.tag <$> points e = seqZ 1 (Z.of_nat (length (points e)))
   ∧ NoDup (Point.tag <$> points e))
  ∧ (Line.tag <$> lines e = seqZ 1 (Z.of_nat (length (lines e)))
     ∧ NoDup (Line.tag <$> lines e))
  ∧ (CurveLoop.tag <$> curve_loops e = seqZ 1 (Z.of_nat (length (curve_loops e)))
     ∧ NoDup (CurveLoop.tag <$> curve_loops e))
  ∧ (PlaneSurface.tag <$> plane_surfaces e
       = seqZ 1 (Z.of_nat (length (plane_surfaces e)))
     ∧ NoDup (PlaneSurface.tag <$> plane_surfaces e)).
Proof.
  intros He. apply topology_to_gmsh_entities_inv in He as [_ ->].
  unfold topology_entities. cbn [points lines curve_loops plane_surfaces].
  repeat split.
  all: try (eapply seqZ_own_length; first
    [ apply bubbles_points_tags | apply bubbles_lines_tags
    | apply bubbles_loops_tags | apply bubbles_surfaces_tags ]).
Qed.

(** The tags of the chess topology: two compiled regions, twelve points. *)
Lemma tags_contiguous_from_one_witness :
  Point.tag <$> points (topology_entities chess_topology) = [1; 2; 3; 4; 5; 6; 7; 8; 9; 10; 11; 12]
  ∧ Line.tag <$> lines (topology_entities chess_topology) = [1; 2; 3; 4; 5; 6; 7; 8; 9; 10; 11; 12]
  ∧ CurveLoop.tag <$> curve_loops (topology_entities chess_topology) = [1; 2; 3]
  ∧ PlaneSurface.tag <$> plane_surfaces (topology_entities chess_topology) = [1; 2].
Proof.
  assert (topology_to_gmsh_entities chess_topology
          = Ok (topology_entities chess_topology)) as Hrun
    by (vm_compute; reflexivity).
  destruct (tags_contiguous_from_one _ _ Hrun)
    as ((Hp & _) & (Hl & _) & (Hc & _) & (Hs & _)).
  rewrite Hp, Hl, Hc, Hs. by vm_compute.
Defined.

(** C7. The single square ring [(0,0),(1,0),(1,1),(0,1),(0,0)] at level 0,
    without holes, compiles to 4 points tagged 1 to 4, 4 lines tagged 1 to
    4 the last of which goes from point 4 back to point 1, the curve loop
    1 with lines [1,2,3,4], the plane surface 1 with loops [1] and the
    physical group 1 with entities [1]. *)
Theorem square_round_trip :
  topology_to_gmsh_entities square_topology
  = Ok {|
      points :=
        [Point.mk 0 0 0 lc_default 1; Point.mk 1 0 0 lc_default 2;
         Point.mk 1 1 0 lc_default 3; Point.mk 0 1 0 lc_default 4];
      lines := [Line.mk 1 2 1; Line.mk 2 3 2; Line.mk 3 4 3; Line.mk 4 1 4];
      curve_loops := [CurveLoop.mk [1; 2; 3; 4] 1];
      plane_surfaces := [PlaneSurface.mk [1] 1];
      physical_groups := [PhysicalGroup.mk two [1] 1];
    |}.
Proof. vm_compute. reflexivity. Qed.

(** C9. When every (polygon, level) pair of the topology is on a hole
    level, the run returns, without raising, the entity set whose five
    collections are empty. *)
Theorem no_region_gives_empty_entities topo :
  Forall (λ b, b.2 ∈ holes topo) (flatten topo) →
  topology_to_gmsh_entities topo = Ok (mkGmshEntities [] [] [] [] []).
Proof.
  intros Hholes. apply non_holes_nil in Hholes.
  rewrite topology_to_gmsh_entities_ok by (by rewrite Hholes).
  unfold topology_entities. by rewrite Hholes.
Qed.

(** The topology whose only region is on the hole level. *)
Lemma no_region_gives_empty_entities_witness :
  topology_to_gmsh_entities void_topology = Ok (mkGmshEntities [] [] [] [] []).
Proof.
  apply (no_region_gives_empty_entities void_topology).
  constructor; [|constructor]. unfold void_topology. simpl.
  apply (bool_decide_unpack _). by vm_compute.
Defined.

(** C10. Every point the compiler produces, whatever the polygon and the
    ring, has z = 0.0 and the characteristic length 0.1: the length is a
    constant of the code, neither function takes it as an argument. *)
Theorem points_planar_with_fixed_length :
  lc_default = 0.1%float
  ∧ (∀ polygon level point_tag line_tag curve_loop_tag plane_surface_tag
       e point_tag' line_tag' curve_loop_tag' plane_surface_tag',
       bubble_to_gmsh_entities polygon level
         point_tag line_tag curve_loop_tag plane_surface_tag
       = Ok (e, point_tag', line_tag', curve_loop_tag', plane_surface_tag') →
       Forall (λ p, Point.z p = 0%float ∧ Point.lc p = 0.1%float) (points e))
  ∧ (∀ topo e,
       topology_to_gmsh_entities topo = Ok e →
       Forall (λ p, Point.z p = 0%float ∧ Point.lc p = 0.1%float) (points e)).
Proof.
  split; [done|]. split.
  - intros polygon level pt lt clt pst e pt' lt' clt' pst' He.
    apply bubble_to_gmsh_entities_inv in He as [_ He]. inversion He; subst.
    apply rings_points_planar.
  - intros topo e He. apply topology_to_gmsh_entities_inv in He as [_ ->].
    apply bubbles_points_planar.
Qed.

(** The points of the square. *)
Lemma points_planar_with_fixed_length_witness :
  Forall (λ p, Point.z p = 0%float ∧ Point.lc p = 0.1%float)
         (points (topology_entities square_topology)).
Proof.
  apply (proj2 (proj2 points_planar_with_fixed_length) square_topology).
  by vm_compute.
Defined.

(** C2. A closed ring [c :: cs ++ [c]] with N = 1 + |cs| >= 3 distinct
    coordinates compiles to exactly N points, one per coordinate in input
    order, closing duplicate dropped; exactly N lines, line i going from
    point i to point i + 1 and the last one back to the first point; and
    one curve loop that lists these lines in order. The lines form one
    closed cycle through every point: the end of line i is the start of
    line (i + 1) mod N. Compiled as the exterior ring of a polygon
    without interior rings, these are the entities of the polygon. *)
Theorem ring_compiles_to_closed_cycle (c : coord) (cs : list coord)
    (point_tag line_tag curve_loop_tag : Z) :
  (3 ≤ length (c :: cs))%nat →
  distinct_coords (c :: cs) = true →
  ∃ pts lns loop,
    ring_to_gmsh_entities ((c :: cs) ++ [c]) point_tag line_tag curve_loop_tag
    = Ok (pts, lns, loop,
          point_tag + Z.of_nat (length (c :: cs)),
          line_tag + Z.of_nat (length (c :: cs)),
          curve_loop_tag + 1)
    ∧ length pts = length (c :: cs)
    ∧ (∀ i x y,
         (c :: cs) !! i = Some (x, y) →
         pts !! i = Some (Point.mk x y 0 lc_default (point_tag + Z.of_nat i)))
    ∧ length lns = length (c :: cs)
    ∧ (∀ i,
         (i < length (c :: cs))%nat →
         lns !! i
         = Some (Line.mk (point_tag + Z.of_nat i)
                         (point_tag + Z.of_nat (S i mod length (c :: cs)))
                         (line_tag + Z.of_nat i)))
    ∧ loop = CurveLoop.mk (Line.tag <$> lns) curve_loop_tag
    ∧ (∀ i l l',
         lns !! i = Some l →
         lns !! (S i mod length (c :: cs))%nat = Some l' →
         Line.end_tag l = Line.start_tag l')
    ∧ Line.start_tag <$> lns = Point.tag <$> pts
    ∧ NoDup (Point.tag <$> pts)
    ∧ (∀ level plane_surface_tag,
         bubble_to_gmsh_entities (mkPolygon ((c :: cs) ++ [c]) []) level
           point_tag line_tag curve_loop_tag plane_surface_tag
         = Ok (mkGmshEntities pts lns [loop]
                 [PlaneSurface.mk [curve_loop_tag] plane_surface_tag]
                 [PhysicalGroup.mk two [plane_surface_tag] (level + 1)],
               point_tag + Z.of_nat (length (c :: cs)),
               line_tag + Z.of_nat (length (c :: cs)),
               curve_loop_tag + 1,
               plane_surface_tag + 1)).
Proof.
  intros HN _. set (coords := (c :: cs) ++ [c]).
  assert (ring_size coords = length (c :: cs)) as Hsize by apply ring_size_snoc.
  assert (ring_ok coords = true) as Hok.
  { apply bool_decide_eq_true. unfold coords. rewrite length_app. simpl. lia. }
  exists (ring_points coords point_tag),
    (ring_lines (ring_size coords) point_tag line_tag),
    (ring_loop (ring_size coords) line_tag curve_loop_tag).
  rewrite (ring_to_gmsh_entities_ok coords) by done. rewrite !Hsize.
  split; [done|]. split; [by rewrite length_ring_points|].
  split.
  { intros i x y Hi. apply lookup_ring_points_coord.
    unfold coords. by rewrite all_but_last_snoc. }
  split; [by rewrite length_ring_lines|].
  split; [intros i Hi; by apply lookup_ring_lines|].
  split; [by rewrite ring_lines_tags|].
  split; [apply ring_lines_cycle|].
  split; [by rewrite ring_lines_start_tags, ring_points_tags, Hsize|].
  split; [rewrite ring_points_tags; apply NoDup_seqZ|].
  intros level pst.
  rewrite bubble_to_gmsh_entities_ok by (unfold polygon_ok; simpl; by rewrite Hok).
  unfold polygon_entities, polygon_rings, rings_size. simpl.
  fold coords. rewrite !app_nil_r, Nat.add_0_r, Hsize.
  rewrite (seqZ_cons curve_loop_tag), seqZ_nil by lia. simpl. done.
Qed.

(** The square ring, compiled with every counter at 1. *)
Lemma ring_compiles_to_closed_cycle_witness :
  ∃ pts lns loop,
    ring_to_gmsh_entities square 1 1 1 = Ok (pts, lns, loop, 5, 5, 2)
    ∧ length pts = 4%nat
    ∧ Line.start_tag <$> lns = [1; 2; 3; 4]
    ∧ Line.end_tag <$> lns = [2; 3; 4; 1].
Proof.
  destruct (ring_compiles_to_closed_cycle (0, 0)%float
              [(1, 0); (1, 1); (0, 1)]%float 1 1 1)
    as (pts & lns & loop & Hrun & Hpts & _ & _ & _ & _ & _ & _ & _ & _).
  { simpl. lia. }
  { by vm_compute. }
  exists pts, lns, loop. split; [exact Hrun|]. split; [exact Hpts|].
  vm_compute in Hrun. inversion Hrun. by vm_compute.
Defined.

(** C8. A polygon with an exterior ring and k >= 0 interior rings compiles
    to exactly one plane surface, whose curve-loop tags are the tags of
    the polygon's curve loops in compilation order: the loop of the
    exterior ring first, then the loop of each interior ring. The square
    with one interior square at level 0 compiles to 8 points, 8 lines, the
    curve loops 1 and 2, one plane surface with loops [1,2] and one
    physical group with entities [1]. *)
Theorem plane_surface_lists_loops_in_order :
  (∀ polygon level point_tag line_tag curve_loop_tag plane_surface_tag,
     polygon_ok polygon = true →
     ∃ e point_tag' line_tag' curve_loop_tag',
       bubble_to_gmsh_entities polygon level
         point_tag line_tag curve_loop_tag plane_surface_tag
       = Ok (e, point_tag', line_tag', curve_loop_tag', plane_surface_tag + 1)
       ∧ plane_surfaces e
         = [PlaneSurface.mk (CurveLoop.tag <$> curve_loops e) plane_surface_tag]
       ∧ length (curve_loops e) = S (length (interiors polygon))
       ∧ (∃ loop,
            curve_loops e !! 0%nat = Some loop
            ∧ CurveLoop.tag loop = curve_loop_tag
            ∧ length (CurveLoop.line_tags loop) = ring_size (exterior polygon))
       ∧ (∀ i r,
            interiors polygon !! i = Some r →
            ∃ loop,
              curve_loops e !! S i = Some loop
              ∧ CurveLoop.tag loop = curve_loop_tag + 1 + Z.of_nat i
              ∧ length (CurveLoop.line_tags loop) = ring_size r)
       ∧ physical_groups e
         = [PhysicalGroup.mk two [plane_surface_tag] (level + 1)])
  ∧ ∃ e,
      topology_to_gmsh_entities holed_square_topology = Ok e
      ∧ length (points e) = 8%nat
      ∧ length (lines e) = 8%nat
      ∧ CurveLoop.tag <$> curve_loops e = [1; 2]
      ∧ plane_surfaces e = [PlaneSurface.mk [1; 2] 1]
      ∧ physical_groups e = [PhysicalGroup.mk two [1] 1].
Proof.
  split.
  - intros polygon level pt lt clt pst Hok.
    rewrite bubble_to_gmsh_entities_ok by done.
    eexists _, _, _, _. split; [done|].
    unfold polygon_entities. cbn [plane_surfaces curve_loops physical_groups].
    split; [by rewrite rings_loops_tags|].
    split; [by rewrite length_rings_loops|].
    split; [|split; [|done]].
    + eexists. split; [done|]. split; [done|].
      simpl. rewrite length_seqZ. lia.
    + intros i r Hr.
      destruct (lookup_rings_loops (polygon_rings polygon) lt clt (S i) r Hr)
        as [lt' Hloop].
      eexists. split; [exact Hloop|]. split; [simpl; lia|].
      simpl. rewrite length_seqZ. lia.
  - eexists. split; [by vm_compute|]. by vm_compute.
Qed.

(** The square with its interior ring. *)
Lemma plane_surface_lists_loops_in_order_witness :
  ∃ e point_tag' line_tag' curve_loop_tag',
    bubble_to_gmsh_entities holed_square 0 1 1 1 1
    = Ok (e, point_tag', line_tag', curve_loop_tag', 2)
    ∧ plane_surfaces e = [PlaneSurface.mk (CurveLoop.tag <$> curve_loops e) 1]
    ∧ length (curve_loops e) = 2%nat.
Proof.
  destruct (proj1 plane_surface_lists_loops_in_order holed_square 0 1 1 1 1)
    as (e & pt' & lt' & clt' & Hrun & Hsurface & Hloops & _); [by vm_compute|].
  exists e, pt', lt', clt'. split; [exact Hrun|]. split; [exact Hsurface|].
  exact Hloops.
Defined.

(** C3. In every run that returns, the physical groups have pairwise
    different tags, and for every compiled region of level [level] there
    is exactly one group with tag [level + 1]; its entity tags contain the
    plane-surface tag of every compiled region of that level, and only
    such tags. *)
Theorem same_level_regions_share_one_group topo e :
  topology_to_gmsh_entities topo = Ok e →
  NoDup (PhysicalGroup.tag <$> physical_groups e)
  ∧ ∀ i polygon level,
      non_holes (holes topo) (flatten topo) !! i = Some (polygon, level) →
      ∃ group,
        group ∈ physical_groups e
        ∧ PhysicalGroup.tag group = level + 1
        ∧ (∀ group',
             group' ∈ physical_groups e →
             PhysicalGroup.tag group' = level + 1 → group' = group)
        ∧ (∀ j polygon',
             non_holes (holes topo) (flatten topo) !! j = Some (polygon', level) →
             ∃ surface,
               plane_surfaces e !! j = Some surface
               ∧ length (PlaneSurface.curve_loop_tags surface)
                 = length (polygon_rings polygon')
               ∧ PlaneSurface.tag surface ∈ PhysicalGroup.entity_tags group)
        ∧ (∀ t,
             t ∈ PhysicalGroup.entity_tags group →
             ∃ j polygon' surface,
               non_holes (holes topo) (flatten topo) !! j = Some (polygon', level)
               ∧ plane_surfaces e !! j = Some surface
               ∧ PlaneSurface.tag surface = t).
Proof.
  intros He. apply topology_to_gmsh_entities_inv in He as [_ ->].
  unfold topology_entities. cbn [physical_groups plane_surfaces].
  set (bubbles := non_holes (holes topo) (flatten topo)).
  pose proof (merged_groups_NoDup (bubbles_groups bubbles 1)) as Hnodup.
  split; [done|]. intros i polygon level Hi.
  pose proof (lookup_bubbles_groups bubbles 1 i polygon level Hi) as Hs.
  apply list_elem_of_lookup_2 in Hs.
  destruct (merged_groups_complete _ _ Hs) as (group & Hgroup & Htag & Hsub).
  simpl in Htag. exists group. split; [done|]. split; [done|].
  split; [|split].
  - intros group' Hgroup' Htag'.
    eapply NoDup_fmap_elem_eq; [exact Hnodup|done|done|congruence].
  - intros j polygon' Hj.
    destruct (lookup_bubbles_surfaces bubbles 1 1 1 1 j polygon' level Hj)
      as [clt' Hsurface].
    eexists. split; [exact Hsurface|]. simpl. split.
    + rewrite length_seqZ. lia.
    + pose proof (lookup_bubbles_groups bubbles 1 j polygon' level Hj) as Hs'.
      apply list_elem_of_lookup_2 in Hs'.
      destruct (merged_groups_complete _ _ Hs') as (group' & Hgroup' & Htag' & Hsub').
      simpl in Htag', Hsub'.
      assert (group' = group) as <-.
      { eapply NoDup_fmap_elem_eq; [exact Hnodup|done|done|congruence]. }
      apply Hsub'. left.
  - intros t Ht.
    destruct (merged_groups_sound _ _ _ Hgroup Ht) as (s & Hs' & Htag' & Hts).
    apply list_elem_of_lookup in Hs' as [j Hj].
    apply lookup_bubbles_groups_inv in Hj as (polygon' & level' & Hj & ->).
    simpl in Htag', Hts. apply list_elem_of_singleton in Hts as ->.
    assert (level' = level) as -> by lia.
    destruct (lookup_bubbles_surfaces bubbles 1 1 1 1 j polygon' level Hj)
      as [clt' Hsurface].
    eexists j, polygon', _. split; [done|]. split; [exact Hsurface|done].
Qed.

(** The chess topology: its two compiled regions, both of level 2, share
    the group of tag 3. *)
Lemma same_level_regions_share_one_group_witness :
  NoDup (PhysicalGroup.tag <$> physical_groups (topology_entities chess_topology))
  ∧ physical_groups (topology_entities chess_topology)
    = [PhysicalGroup.mk two [1; 2] 3].
Proof.
  split; [|by vm_compute].
  apply (same_level_regions_share_one_group chess_topology).
  by vm_compute.
Defined.

(** C4. A (polygon, level) pair on a hole level leaves no trace in the
    output: the run gives the same result, entity for entity, as the run
    on the topology without that pair; there are as many plane surfaces as
    non-hole pairs, and no physical group carries the tag of the hole
    level. *)
Theorem hole_region_contributes_nothing hole_levels before polygon level after :
  level ∈ hole_levels →
  topology_to_gmsh_entities (mkTopology (before ++ (polygon, level) :: after) hole_levels)
  = topology_to_gmsh_entities (mkTopology (before ++ after) hole_levels)
  ∧ ∀ e,
      topology_to_gmsh_entities
        (mkTopology (before ++ (polygon, level) :: after) hole_levels) = Ok e →
      length (plane_surfaces e) = length (non_holes hole_levels (before ++ after))
      ∧ Forall (λ group, PhysicalGroup.tag group ≠ level + 1) (physical_groups e).
Proof.
  intros Hlevel.
  assert (non_holes hole_levels (before ++ (polygon, level) :: after)
          = non_holes hole_levels (before ++ after)) as Hsame.
  { by rewrite !non_holes_app, non_holes_cons_skip. }
  split; [by apply topology_to_gmsh_entities_non_holes|].
  intros e He. apply topology_to_gmsh_entities_inv in He as [_ ->].
  unfold topology_entities. cbn [holes flatten plane_surfaces physical_groups].
  rewrite Hsame. split; [apply length_bubbles_surfaces|].
  rewrite Forall_forall. intros group Hgroup Htag.
  apply merged_groups_origin in Hgroup as (s & Hs & Hst).
  apply elem_of_bubbles_groups in Hs as (p & l & Hp & Hl).
  apply elem_of_non_holes in Hp as [Hl' _].
  assert (l = level) as -> by lia. done.
Qed.

(** The chess topology compiles as if its level-1 region were absent. *)
Lemma hole_region_contributes_nothing_witness :
  topology_to_gmsh_entities chess_topology
  = topology_to_gmsh_entities
      (mkTopology [(holed_square, 2); (far_polygon, 2)] {[1]}).
Proof.
  apply (hole_region_contributes_nothing {[1]} [(holed_square, 2)]
           square_polygon 1 [(far_polygon, 2)]).
  apply (bool_decide_unpack _). by vm_compute.
Defined.

(** C5 fails as stated: the closed ring (0,0), (1,0), (1,0), (0,0) has
    only two different coordinates once its closing coordinate is
    dropped, and the run returns an entity set with three points. *)
Lemma degenerate_ring_compiles :
  count_distinct (all_but_last degenerate_ring) = 2%nat
  ∧ topology_to_gmsh_entities degenerate_topology
    = Ok {|
        points :=
          [Point.mk 0 0 0 lc_default 1; Point.mk 1 0 0 lc_default 2;
           Point.mk 1 0 0 lc_default 3];
        lines := [Line.mk 1 2 1; Line.mk 2 3 2; Line.mk 3 1 3];
        curve_loops := [CurveLoop.mk [1; 2; 3] 1];
        plane_surfaces := [PlaneSurface.mk [1] 1];
        physical_groups := [PhysicalGroup.mk two [1] 1];
      |}.
Proof. split; by vm_compute. Qed.

(** C6. Two regions P1 and P2, both at level 1, compile to exactly one
    physical group, of tag 2, whose entity tags are the plane-surface tag
    of P1 followed by that of P2. In the reverse input order there is
    again exactly one group of tag 2; its entity tags are the two
    plane-surface tags of that run, and as a set they are the entity tags
    of the first run. *)
Theorem same_level_pair_merges P1 P2 hole_levels :
  polygon_ok P1 = true → polygon_ok P2 = true → 1 ∉ hole_levels →
  ∃ e12 e21 s1 s2 s1' s2' tags,
    topology_to_gmsh_entities (mkTopology [(P1, 1); (P2, 1)] hole_levels) = Ok e12
    ∧ plane_surfaces e12 = [s1; s2]
    ∧ length (PlaneSurface.curve_loop_tags s1) = length (polygon_rings P1)
    ∧ length (PlaneSurface.curve_loop_tags s2) = length (polygon_rings P2)
    ∧ physical_groups e12
      = [PhysicalGroup.mk two [PlaneSurface.tag s1; PlaneSurface.tag s2] 2]
    ∧ topology_to_gmsh_entities (mkTopology [(P2, 1); (P1, 1)] hole_levels) = Ok e21
    ∧ plane_surfaces e21 = [s2'; s1']
    ∧ length (PlaneSurface.curve_loop_tags s1') = length (polygon_rings P1)
    ∧ length (PlaneSurface.curve_loop_tags s2') = length (polygon_rings P2)
    ∧ physical_groups e21 = [PhysicalGroup.mk two tags 2]
    ∧ tags ≡ₚ [PlaneSurface.tag s1'; PlaneSurface.tag s2']
    ∧ (list_to_set tags : gset Z)
      = list_to_set [PlaneSurface.tag s1; PlaneSurface.tag s2].
Proof.
  intros H1 H2 Hlevel.
  assert (∀ P Q, non_holes hole_levels [(P, 1); (Q, 1)] = [(P, 1); (Q, 1)]) as Hkeep.
  { intros P Q. by rewrite !non_holes_cons_keep. }
  eexists _, _, _, _, _, _, _.
  rewrite !topology_to_gmsh_entities_ok
    by (cbn [holes flatten]; rewrite Hkeep; simpl; by rewrite ?H1, ?H2).
  unfold topology_entities. cbn [holes flatten]. rewrite !Hkeep.
  cbn [plane_surfaces physical_groups bubbles_entities bubbles_groups
       polygon_entities mbind list_bind app].
  repeat split; try reflexivity.
  all: try (simpl; rewrite length_seqZ; lia).
  apply Permutation_swap.
Qed.

(** The holed square and the far square, both at level 1. *)
Lemma same_level_pair_merges_witness :
  ∃ e12 e21,
    topology_to_gmsh_entities (mkTopology [(holed_square, 1); (far_polygon, 1)] ∅)
    = Ok e12
    ∧ topology_to_gmsh_entities (mkTopology [(far_polygon, 1); (holed_square, 1)] ∅)
      = Ok e21
    ∧ physical_groups e12 = [PhysicalGroup.mk two [1; 2] 2]
    ∧ PhysicalGroup.tag <$> physical_groups e21 = [2].
Proof.
  destruct (same_level_pair_merges holed_square far_polygon ∅)
    as (e12 & e21 & s1 & s2 & s1' & s2' & tags & Hrun12 & Hs12 & _ & _ & Hg12
        & Hrun21 & _ & _ & _ & Hg21 & _ & _).
  { by vm_compute. }
  { by vm_compute. }
  { apply (bool_decide_unpack _). by vm_compute. }
  exists e12, e21. split; [exact Hrun12|]. split; [exact Hrun21|].
  rewrite Hg21. split; [|done].
  vm_compute in Hrun12. inversion Hrun12; subst. by vm_compute.
Defined.

(** The three-coordinate ring (0,0), (1,0), (0,0), with two different
    coordinates in all, is compiled as well: two points and two lines,
    there and back. *)
Example two_coordinate_ring_compiles :
  ring_to_gmsh_entities [(0, 0); (1, 0); (0, 0)]%float 1 1 1
  = Ok ([Point.mk 0 0 0 lc_default 1; Point.mk 1 0 0 lc_default 2],
        [Line.mk 1 2 1; Line.mk 2 1 2], CurveLoop.mk [1; 2] 1, 3, 3, 2).
Proof. by vm_compute. Qed.

(** * Further properties of the compiler *)

(** ** Coordinates *)

Lemma ring_points_coords (coords : ring) point_tag :
  point_coord <$> ring_points coords point_tag = all_but_last coords.
Proof.
  unfold ring_points. apply list_eq. intros i.
  rewrite list_lookup_fmap, list_lookup_imap.
  by destruct (all_but_last coords !! i) as [[x y]|].
Qed.

Lemma rings_points_coords rings point_tag :
  point_coord <$> rings_points rings point_tag = rings ≫= all_but_last.
Proof.
  revert point_tag. induction rings as [|r rings IH]; intros pt; [done|].
  cbn [rings_points]. by rewrite fmap_app, ring_points_coords, IH, bind_cons.
Qed.

Lemma bubbles_points_coords bubbles point_tag line_tag curve_loop_tag plane_surface_tag :
  point_coord <$>
    (bubbles_entities bubbles point_tag line_tag curve_loop_tag plane_surface_tag
     ≫= points)
  = bubbles ≫= (λ b, polygon_coords b.1).
Proof.
  revert point_tag line_tag curve_loop_tag plane_surface_tag.
  induction bubbles as [|[polygon level] bubbles IH]; intros pt lt clt pst; [done|].
  cbn [bubbles_entities]. rewrite !bind_cons, fmap_app, IH.
  cbn [polygon_entities points]. by rewrite rings_points_coords.
Qed.

(** ** References between the kinds *)

Lemma ring_lines_end_tags n point_tag line_tag :
  Line.end_tag <$> ring_lines n point_tag line_tag ≡ₚ seqZ point_tag (Z.of_nat n).
Proof.
  destruct n as [|n]; [done|].
  rewrite ring_lines_snoc, fmap_app, <-list_fmap_compose. simpl.
  rewrite (seqZ_cons point_tag) by lia.
  replace (Z.pred (Z.of_nat (S n))) with (Z.of_nat n) by lia.
  assert ((Line.end_tag
           ∘ (λ i : nat,
                Line.mk (point_tag + Z.of_nat i) (point_tag + Z.of_nat (S i))
                        (line_tag + Z.of_nat i))) <$> seq 0 n
          = seqZ (Z.succ point_tag) (Z.of_nat n)) as ->.
  { unfold seqZ. rewrite Nat2Z.id. apply list_fmap_ext. intros i j _. simpl. lia. }
  symmetry. apply Permutation_cons_append.
Qed.

Lemma rings_lines_start_tags rings point_tag line_tag :
  Line.start_tag <$> rings_lines rings point_tag line_tag
  = seqZ point_tag (Z.of_nat (rings_size rings)).
Proof.
  revert point_tag line_tag.
  induction rings as [|r rings IH]; intros pt lt; [done|].
  cbn [rings_lines]. rewrite fmap_app, ring_lines_start_tags, IH, rings_size_cons.
  rewrite Nat2Z.inj_add, seqZ_app by lia. done.
Qed.

Lemma rings_lines_end_tags rings point_tag line_tag :
  Line.end_tag <$> rings_lines rings point_tag line_tag
  ≡ₚ seqZ point_tag (Z.of_nat (rings_size rings)).
Proof.
  revert point_tag line_tag.
  induction rings as [|r rings IH]; intros pt lt; [done|].
  cbn [rings_lines]. rewrite fmap_app, ring_lines_end_tags, IH, rings_size_cons.
  rewrite Nat2Z.inj_add, seqZ_app by lia. done.
Qed.

Lemma bubbles_lines_start_tags bubbles point_tag line_tag curve_loop_tag plane_surface_tag :
  Line.start_tag <$>
    (bubbles_entities bubbles point_tag line_tag curve_loop_tag plane_surface_tag
     ≫= lines)
  = seqZ point_tag (Z.of_nat (bubbles_size bubbles)).
Proof.
  revert point_tag line_tag curve_loop_tag plane_surface_tag.
  induction bubbles as [|[polygon level] bubbles IH]; intros pt lt clt pst; [done|].
  cbn [bubbles_entities]. rewrite bind_cons, fmap_app, IH, bubbles_size_cons.
  cbn [polygon_entities lines]. rewrite rings_lines_start_tags.
  rewrite Nat2Z.inj_add, seqZ_app by lia. done.
Qed.

Lemma bubbles_lines_end_tags bubbles point_tag line_tag curve_loop_tag plane_surface_tag :
  Line.end_tag <$>
    (bubbles_entities bubbles point_tag line_tag curve_loop_tag plane_surface_tag
     ≫= lines)
  ≡ₚ seqZ point_tag (Z.of_nat (bubbles_size bubbles)).
Proof.
  revert point_tag line_tag curve_loop_tag plane_surface_tag.
  induction bubbles as [|[polygon level] bubbles IH]; intros pt lt clt pst; [done|].
  cbn [bubbles_entities]. rewrite bind_cons, fmap_app, IH, bubbles_size_cons.
  cbn [polygon_entities lines]. rewrite rings_lines_end_tags.
  rewrite Nat2Z.inj_add, seqZ_app by lia. done.
Qed.

Lemma rings_loops_line_tags rings line_tag curve_loop_tag :
  mjoin (CurveLoop.line_tags <$> rings_loops rings line_tag curve_loop_tag)
  = seqZ line_tag (Z.of_nat (rings_size rings)).
Proof.
  revert line_tag curve_loop_tag.
  induction rings as [|r rings IH]; intros lt clt; [done|].
  cbn [rings_loops fmap list_fmap mjoin list_join ring_loop CurveLoop.line_tags].
  rewrite IH, rings_size_cons, Nat2Z.inj_add, seqZ_app by lia. done.
Qed.

Lemma bubbles_loops_line_tags bubbles point_tag line_tag curve_loop_tag plane_surface_tag :
  mjoin (CurveLoop.line_tags <$>
           (bubbles_entities bubbles point_tag line_tag curve_loop_tag plane_surface_tag
            ≫= curve_loops))
  = seqZ line_tag (Z.of_nat (bubbles_size bubbles)).
Proof.
  revert point_tag line_tag curve_loop_tag plane_surface_tag.
  induction bubbles as [|[polygon level] bubbles IH]; intros pt lt clt pst; [done|].
  cbn [bubbles_entities]. rewrite bind_cons, fmap_app, join_app, IH, bubbles_size_cons.
  cbn [polygon_entities curve_loops]. rewrite rings_loops_line_tags.
  rewrite Nat2Z.inj_add, seqZ_app by lia. done.
Qed.

Lemma bubbles_surfaces_loop_tags bubbles point_tag line_tag curve_loop_tag plane_surface_tag :
  mjoin (PlaneSurface.curve_loop_tags <$>
           (bubbles_entities bubbles point_tag line_tag curve_loop_tag plane_surface_tag
            ≫= plane_surfaces))
  = seqZ curve_loop_tag (Z.of_nat (bubbles_rings bubbles)).
Proof.
  revert point_tag line_tag curve_loop_tag plane_surface_tag.
  induction bubbles as [|[polygon level] bubbles IH]; intros pt lt clt pst; [done|].
  cbn [bubbles_entities]. rewrite bind_cons, fmap_app, join_app, IH, bubbles_rings_cons.
  cbn [polygon_entities plane_surfaces fmap list_fmap mjoin list_join
       PlaneSurface.curve_loop_tags].
  rewrite app_nil_r, Nat2Z.inj_add, seqZ_app by lia. done.
Qed.

Lemma bubbles_groups_entity_tags bubbles plane_surface_tag :
  bubbles_groups bubbles plane_surface_tag ≫= PhysicalGroup.entity_tags
  = seqZ plane_surface_tag (Z.of_nat (length bubbles)).
Proof.
  revert plane_surface_tag.
  induction bubbles as [|[polygon level] bubbles IH]; intros pst; [done|].
  cbn [bubbles_groups length]. rewrite bind_cons, IH. simpl.
  rewrite (seqZ_cons pst) by lia. do 2 f_equal; lia.
Qed.

Lemma merged_groups_entity_tags groups :
  merged_groups groups ≫= PhysicalGroup.entity_tags
  ≡ₚ groups ≫= PhysicalGroup.entity_tags.
Proof.
  unfold merged_groups. rewrite list_fmap_bind.
  rewrite <-(sort_by_key_perm PhysicalGroup.tag groups) at 2.
  rewrite <-(groupby_join PhysicalGroup.tag
               (sort_by_key PhysicalGroup.tag groups)) at 2.
  generalize (groupby PhysicalGroup.tag (sort_by_key PhysicalGroup.tag groups)).
  intros kgs. induction kgs as [|[k g] kgs IH]; [done|].
  rewrite fmap_cons. cbn [mjoin list_join].
  rewrite bind_cons, bind_app, IH. done.
Qed.

Lemma rings_ok_of_nonempty (rings : list ring) :
  Forall (λ r, all_but_last r ≠ []) rings → forallb ring_ok rings = true.
Proof.
  induction 1 as [|r rings Hr _ IH]; [done|]. simpl. rewrite IH, andb_true_r.
  destruct (ring_ok r) eqn:Hok; [done|]. by apply ring_ok_false in Hok.
Qed.

(** C5, as the code has it. The compiler has no check of distinct
    coordinates and no DegenerateRing error. A polygon of planar
    coordinates whose rings each keep at least one coordinate once the
    closing coordinate is removed is compiled whether these coordinates
    are distinct or not, one point per remaining coordinate, in order,
    and as many lines. When a ring of a non-hole polygon keeps no
    coordinate, the run fails, with IndexError, and produces no entity
    set. *)
Theorem degenerate_ring_is_compiled :
  (∀ polygon level point_tag line_tag curve_loop_tag plane_surface_tag,
     Forall (λ r, all_but_last r ≠ []) (polygon_rings polygon) →
     ∃ e point_tag' line_tag' curve_loop_tag',
       bubble_to_gmsh_entities polygon level
         point_tag line_tag curve_loop_tag plane_surface_tag
       = Ok (e, point_tag', line_tag', curve_loop_tag', plane_surface_tag + 1)
       ∧ point_coord <$> points e = polygon_coords polygon
       ∧ length (lines e) = length (points e))
  ∧ (∀ topo polygon level r,
       (polygon, level) ∈ flatten topo → level ∉ holes topo →
       r ∈ polygon_rings polygon → all_but_last r = [] →
       topology_to_gmsh_entities topo = Raise IndexError).
Proof.
  split.
  - intros polygon level pt lt clt pst Hrings.
    apply rings_ok_of_nonempty in Hrings.
    rewrite bubble_to_gmsh_entities_ok by done.
    eexists _, _, _, _. split; [done|].
    unfold polygon_entities. cbn [points lines]. split.
    + apply rings_points_coords.
    + rewrite <-(length_fmap Line.tag), <-(length_fmap Point.tag).
      by rewrite rings_lines_tags, rings_points_tags, !length_seqZ.
  - intros topo polygon level r Hp Hlevel Hr Hnil.
    apply topology_to_gmsh_entities_raise, bubbles_ok_false.
    exists polygon, level, r. split; [by apply elem_of_non_holes|done].
Qed.

(** The polygon of the degenerate ring is compiled to three points; the
    empty polygon makes the run fail. *)
Lemma degenerate_ring_is_compiled_witness :
  (∃ e point_tag' line_tag' curve_loop_tag',
     bubble_to_gmsh_entities (mkPolygon degenerate_ring []) 0 1 1 1 1
     = Ok (e, point_tag', line_tag', curve_loop_tag', 2)
     ∧ point_coord <$> points e = [(0, 0); (1, 0); (1, 0)]%float
     ∧ length (lines e) = length (points e))
  ∧ topology_to_gmsh_entities empty_polygon_topology = Raise IndexError.
Proof.
  split.
  - apply (proj1 degenerate_ring_is_compiled (mkPolygon degenerate_ring []) 0 1 1 1 1).
    repeat constructor; by vm_compute.
  - apply (proj2 degenerate_ring_is_compiled empty_polygon_topology
             empty_polygon 0 []).
    + left.
    + apply (bool_decide_unpack _). by vm_compute.
    + left.
    + done.
Defined.

(** X1. The points of a run are, in order, the coordinates of the rings of
    the non-hole polygons, exterior ring first, each ring without its last
    coordinate: no coordinate is changed, reordered or dropped otherwise,
    and the winding of a ring is kept. *)
Theorem points_keep_ring_coordinates topo e :
  topology_to_gmsh_entities topo = Ok e →
  point_coord <$> points e
  = non_holes (holes topo) (flatten topo) ≫= (λ b, polygon_coords b.1).
Proof.
  intros He. apply topology_to_gmsh_entities_inv in He as [_ ->].
  apply bubbles_points_coords.
Qed.

(** The chess topology: the eight coordinates of its first region, then
    the four of its third; the second region is on the hole level. *)
Lemma points_keep_ring_coordinates_witness :
  point_coord <$> points (topology_entities chess_topology)
  = all_but_last square ++ all_but_last inner_square ++ all_but_last far_square.
Proof.
  rewrite (points_keep_ring_coordinates chess_topology) by (by vm_compute).
  by vm_compute.
Defined.

(** X2. In a run that returns, line number i starts at point number i, and
    the end points of the lines are the points again in another order:
    every point is the start of exactly one line and the end of exactly
    one line, and no line refers to a point that does not exist. *)
Theorem lines_join_the_points topo e :
  topology_to_gmsh_entities topo = Ok e →
  Line.start_tag <$> lines e = Point.tag <$> points e
  ∧ Line.end_tag <$> lines e ≡ₚ Point.tag <$> points e.
Proof.
  intros He. apply topology_to_gmsh_entities_inv in He as [_ ->].
  unfold topology_entities. cbn [points lines].
  rewrite bubbles_points_tags, bubbles_lines_start_tags, bubbles_lines_end_tags.
  done.
Qed.

Lemma lines_join_the_points_witness :
  Line.start_tag <$> lines (topology_entities holed_square_topology)
  = [1; 2; 3; 4; 5; 6; 7; 8]
  ∧ Line.end_tag <$> lines (topology_entities holed_square_topology)
    ≡ₚ [1; 2; 3; 4; 5; 6; 7; 8].
Proof.
  destruct (lines_join_the_points holed_square_topology
              (topology_entities holed_square_topology)) as [Hs He];
    [by vm_compute|].
  rewrite Hs, He. by vm_compute.
Defined.

(** X3. In a run that returns, the line tags of the curve loops, loop
    after loop, are the tags of the lines in order, and the curve-loop
    tags of the plane surfaces, surface after surface, are the tags of the
    curve loops in order: every line lies on exactly one curve loop and
    every curve loop bounds exactly one plane surface. *)
Theorem loops_and_surfaces_partition topo e :
  topology_to_gmsh_entities topo = Ok e →
  mjoin (CurveLoop.line_tags <$> curve_loops e) = Line.tag <$> lines e
  ∧ mjoin (PlaneSurface.curve_loop_tags <$> plane_surfaces e)
    = CurveLoop.tag <$> curve_loops e.
Proof.
  intros He. apply topology_to_gmsh_entities_inv in He as [_ ->].
  unfold topology_entities. cbn [lines curve_loops plane_surfaces].
  rewrite bubbles_loops_line_tags, bubbles_lines_tags.
  rewrite bubbles_surfaces_loop_tags, bubbles_loops_tags. done.
Qed.

Lemma loops_and_surfaces_partition_witness :
  mjoin (CurveLoop.line_tags <$> curve_loops (topology_entities chess_topology))
  = [1; 2; 3; 4; 5; 6; 7; 8; 9; 10; 11; 12]
  ∧ mjoin (PlaneSurface.curve_loop_tags <$>
             plane_surfaces (topology_entities chess_topology))
    = [1; 2; 3].
Proof.
  destruct (loops_and_surfaces_partition chess_topology
              (topology_entities chess_topology)) as [Hl Hs]; [by vm_compute|].
  rewrite Hl, Hs. by vm_compute.
Defined.

(** X4. In a run that returns, the entity tags of the merged physical
    groups, taken together, are the tags of the plane surfaces, each
    once: merging loses no surface, duplicates none and invents none. *)
Theorem groups_partition_surfaces topo e :
  topology_to_gmsh_entities topo = Ok e →
  physical_groups e ≫= PhysicalGroup.entity_tags
  ≡ₚ PlaneSurface.tag <$> plane_surfaces e.
Proof.
  intros He. apply topology_to_gmsh_entities_inv in He as [_ ->].
  unfold topology_entities. cbn [plane_surfaces physical_groups].
  rewrite merged_groups_entity_tags, bubbles_groups_entity_tags.
  by rewrite bubbles_surfaces_tags.
Qed.

(** Levels 2, 1, 2: the surfaces 1 and 3 share a group, surface 2 has its
    own. *)
Lemma groups_partition_surfaces_witness :
  physical_groups
    (topology_entities
       (mkTopology [(square_polygon, 2); (far_polygon, 1); (holed_square, 2)] ∅))
  ≫= PhysicalGroup.entity_tags
  ≡ₚ [1; 2; 3].
Proof.
  rewrite (groups_partition_surfaces
             (mkTopology [(square_polygon, 2); (far_polygon, 1); (holed_square, 2)] ∅))
    by (by vm_compute).
  by vm_compute.
Defined.

(** ** The sort is stable *)

Section stable.
Context {A : Type} (key : A → Z) (R : relation A).

Lemma insert_by_key_stable a s :
  StronglySorted (key_then key R) s →
  Forall (R a) s →
  StronglySorted (key_then key R) (insert_by_key key a s).
Proof.
  induction 1 as [|b s Hs IH Hb]; intros Ha; simpl.
  - by repeat constructor.
  - apply Forall_cons in Ha as [Hab Ha]. case_bool_decide as Hk.
    + constructor; [by constructor|].
      assert (key_then key R a b) as Hlt.
      { unfold key_then. destruct (decide (key a = key b)); [by right|left; lia]. }
      constructor; [done|].
      rewrite Forall_forall in Hb, Ha |- *. intros c Hc.
      specialize (Hb c Hc). specialize (Ha c Hc).
      unfold key_then in *. destruct (decide (key a = key c)); [by right|].
      left. lia.
    + constructor; [by apply IH|].
      rewrite insert_by_key_perm. constructor; [|done].
      left. lia.
Qed.

Lemma sort_by_key_stable l :
  StronglySorted R l → StronglySorted (key_then key R) (sort_by_key key l).
Proof.
  induction 1 as [|a l Hl IH Ha]; simpl; [constructor|].
  apply insert_by_key_stable; [done|]. by rewrite sort_by_key_perm.
Qed.

Lemma StronglySorted_join (P : relation A) (ls : list (list A)) :
  StronglySorted P (mjoin ls) → Forall (StronglySorted P) ls.
Proof.
  induction ls as [|l ls IH]; simpl; intros Hs; [constructor|].
  constructor.
  - by eapply StronglySorted_app_1_l.
  - eapply IH, StronglySorted_app_1_r, Hs.
Qed.

Lemma same_key_sorted k g :
  Forall (λ a, key a = k) g →
  StronglySorted (key_then key R) g → StronglySorted R g.
Proof.
  intros Hk. induction 1 as [|a g Hg IH Ha]; [constructor|].
  apply Forall_cons in Hk as [Hka Hk]. constructor; [by apply IH|].
  rewrite Forall_forall in Ha, Hk |- *. intros b Hb.
  destruct (Ha b Hb) as [Hlt|[_ HR]]; [|done].
  specialize (Hk b Hb). lia.
Qed.

(** Within a run of a stably sorted list the original order is kept. *)
Lemma groupby_sorted_runs l :
  StronglySorted (key_then key R) l →
  Forall (λ kg, StronglySorted R kg.2) (groupby key l).
Proof.
  intros Hl. rewrite <-(groupby_join key l) in Hl.
  apply StronglySorted_join in Hl.
  pose proof (groupby_runs key l) as Hruns.
  rewrite Forall_forall in Hl. rewrite Forall_forall in Hruns.
  rewrite Forall_forall. intros kg Hkg.
  destruct (Hruns kg Hkg) as [_ Hk].
  eapply same_key_sorted; [exact Hk|].
  apply Hl. by apply list_elem_of_fmap_2.
Qed.
End stable.

(** ** Order and number of the merged groups *)

Lemma StronglySorted_seqZ m n : StronglySorted Z.lt (seqZ m n).
Proof.
  destruct (decide (0 ≤ n)) as [Hn|Hn]; [|rewrite seqZ_nil by lia; constructor].
  rewrite <-(Z2Nat.id n) by done. generalize (Z.to_nat n). clear. intros n.
  revert m. induction n as [|n IH]; intros m; [constructor|].
  rewrite seqZ_cons by lia. constructor.
  - replace (Z.pred (Z.of_nat (S n))) with (Z.of_nat n) by lia. apply IH.
  - apply Forall_seqZ. lia.
Qed.

Lemma StronglySorted_fmap_inv {A} (f : A → Z) (l : list A) :
  StronglySorted Z.lt (f <$> l) → StronglySorted (λ a b, f a < f b) l.
Proof.
  induction l as [|a l IH]; [constructor|]. rewrite fmap_cons. intros Hs.
  apply StronglySorted_inv in Hs as [Hs Ha]. constructor; [by apply IH|].
  by rewrite Forall_fmap in Ha.
Qed.

Lemma bind_single_entity g :
  Forall single_entity g →
  g ≫= PhysicalGroup.entity_tags = first_entity <$> g.
Proof.
  induction 1 as [|s g [t Ht] _ IH]; [done|].
  rewrite bind_cons, fmap_cons, IH. unfold first_entity. by rewrite Ht.
Qed.

Lemma bubbles_groups_sorted bubbles plane_surface_tag :
  StronglySorted (λ s s', first_entity s < first_entity s')
    (bubbles_groups bubbles plane_surface_tag).
Proof.
  apply StronglySorted_fmap_inv.
  rewrite <-bind_single_entity by apply bubbles_groups_single.
  rewrite bubbles_groups_entity_tags. apply StronglySorted_seqZ.
Qed.

Lemma merged_groups_ascending bubbles plane_surface_tag :
  Forall (λ g, PhysicalGroup.dim g = two
               ∧ PhysicalGroup.entity_tags g ≠ []
               ∧ StronglySorted Z.lt (PhysicalGroup.entity_tags g))
         (merged_groups (bubbles_groups bubbles plane_surface_tag)).
Proof.
  set (L := bubbles_groups bubbles plane_surface_tag).
  set (sorted := sort_by_key PhysicalGroup.tag L).
  assert (Forall single_entity sorted) as Hsingle.
  { rewrite Forall_forall. intros s Hs. apply elem_of_sort_by_key in Hs.
    revert s Hs. rewrite <-Forall_forall. apply bubbles_groups_single. }
  pose proof (groupby_Forall PhysicalGroup.tag _ _ Hsingle) as Hsingles.
  pose proof (groupby_runs PhysicalGroup.tag sorted) as Hruns.
  pose proof (groupby_sorted_runs PhysicalGroup.tag _ sorted
                (sort_by_key_stable PhysicalGroup.tag _ L
                   (bubbles_groups_sorted bubbles plane_surface_tag))) as Horder.
  unfold merged_groups. fold L. fold sorted.
  rewrite Forall_fmap. rewrite Forall_forall in Hsingles.
  rewrite Forall_forall in Hruns. rewrite Forall_forall in Horder.
  rewrite Forall_forall. intros kg Hkg.
  specialize (Hsingles kg Hkg). specialize (Horder kg Hkg).
  destruct (Hruns kg Hkg) as [Hne _]. simpl.
  rewrite bind_single_entity by done. split; [done|]. split.
  - destruct kg as [k [|s g]]; done.
  - eapply StronglySorted_fmap; [|exact Horder]. done.
Qed.

Lemma levels_of_bubbles_groups bubbles plane_surface_tag :
  PhysicalGroup.tag <$> bubbles_groups bubbles plane_surface_tag
  = (λ b : Polygon * Z, b.2 + 1) <$> bubbles.
Proof.
  revert plane_surface_tag.
  induction bubbles as [|[polygon level] bubbles IH]; intros pst; [done|].
  cbn [bubbles_groups]. by rewrite !fmap_cons, IH.
Qed.

Lemma elem_of_merged_groups_tags groups t :
  t ∈ PhysicalGroup.tag <$> merged_groups groups
  ↔ t ∈ PhysicalGroup.tag <$> groups.
Proof.
  rewrite !list_elem_of_fmap. split.
  - intros (m & -> & Hm). apply merged_groups_origin in Hm as (s & Hs & Hst).
    eauto.
  - intros (s & -> & Hs).
    apply merged_groups_complete in Hs as (m & Hm & Hmt & _). eauto.
Qed.

(** X5. In a run that returns, the physical groups come by ascending tag;
    each has dimension 2 and at least one entity, and its entity tags
    ascend: the surfaces of a level are listed in the order they were
    created, whatever the order of the levels in the input. *)
Theorem groups_ascending topo e :
  topology_to_gmsh_entities topo = Ok e →
  StronglySorted Z.lt (PhysicalGroup.tag <$> physical_groups e)
  ∧ Forall (λ g, PhysicalDimension_value (PhysicalGroup.dim g) = 2
                 ∧ PhysicalGroup.entity_tags g ≠ []
                 ∧ StronglySorted Z.lt (PhysicalGroup.entity_tags g))
           (physical_groups e).
Proof.
  intros He. apply topology_to_gmsh_entities_inv in He as [_ ->].
  unfold topology_entities. cbn [physical_groups]. split.
  - rewrite merged_groups_tags.
    apply groupby_sorted_keys, sort_by_key_sorted.
  - eapply Forall_impl; [apply merged_groups_ascending|].
    intros g (-> & Hne & Hsorted). done.
Qed.

(** Levels 2, 1, 2 in the input: the group of tag 2 comes first, the group
    of tag 3 lists the surfaces 1 and 3. *)
Lemma groups_ascending_witness :
  StronglySorted Z.lt
    (PhysicalGroup.tag <$>
       physical_groups
         (topology_entities
            (mkTopology [(square_polygon, 2); (far_polygon, 1); (holed_square, 2)] ∅)))
  ∧ physical_groups
      (topology_entities
         (mkTopology [(square_polygon, 2); (far_polygon, 1); (holed_square, 2)] ∅))
    = [PhysicalGroup.mk two [2] 2; PhysicalGroup.mk two [1; 3] 3].
Proof.
  split; [|by vm_compute].
  apply (groups_ascending
           (mkTopology [(square_polygon, 2); (far_polygon, 1); (holed_square, 2)] ∅)).
  by vm_compute.
Defined.

(** X6. In a run that returns, the tags of the physical groups are, up to
    order, the values level + 1 of the distinct levels of the non-hole
    regions: there are exactly as many groups as distinct non-hole
    levels. *)
Theorem one_group_per_level topo e :
  topology_to_gmsh_entities topo = Ok e →
  PhysicalGroup.tag <$> physical_groups e
  ≡ₚ (λ level, level + 1)
       <$> remove_dups ((non_holes (holes topo) (flatten topo)).*2).
Proof.
  intros He. apply topology_to_gmsh_entities_inv in He as [_ ->].
  unfold topology_entities. cbn [physical_groups].
  apply NoDup_Permutation.
  - apply merged_groups_NoDup.
  - apply NoDup_fmap_2; [intros x y; lia|]. apply NoDup_remove_dups.
  - intros t. rewrite elem_of_merged_groups_tags, levels_of_bubbles_groups.
    rewrite !list_elem_of_fmap. split.
    + intros ([p l] & -> & Hb). exists l. split; [done|].
      apply elem_of_remove_dups, list_elem_of_fmap. by exists (p, l).
    + intros (l & -> & Hl).
      apply elem_of_remove_dups, list_elem_of_fmap in Hl as ([p l'] & -> & Hb).
      by exists (p, l').
Qed.

Lemma one_group_per_level_witness :
  length (physical_groups (topology_entities chess_topology)) = 1%nat.
Proof.
  rewrite <-(length_fmap PhysicalGroup.tag).
  rewrite (one_group_per_level chess_topology) by (by vm_compute).
  by vm_compute.
Defined.

(** X7. In a run that returns there are as many lines as points, one curve
    loop per ring of a non-hole polygon and one plane surface per non-hole
    polygon. *)
Theorem entity_counts topo e :
  topology_to_gmsh_entities topo = Ok e →
  length (lines e) = length (points e)
  ∧ length (curve_loops e)
    = sum_list ((λ b : Polygon * Z, S (length (interiors b.1)))
                  <$> non_holes (holes topo) (flatten topo))
  ∧ length (plane_surfaces e) = length (non_holes (holes topo) (flatten topo)).
Proof.
  intros He. apply topology_to_gmsh_entities_inv in He as [_ ->].
  unfold topology_entities. cbn [points lines curve_loops plane_surfaces].
  split; [|split].
  - rewrite <-(length_fmap Line.tag), <-(length_fmap Point.tag).
    by rewrite bubbles_lines_tags, bubbles_points_tags.
  - rewrite <-(length_fmap CurveLoop.tag), bubbles_loops_tags, length_seqZ.
    by rewrite Nat2Z.id.
  - apply length_bubbles_surfaces.
Qed.

(** Two rings in the first region, one in the third. *)
Lemma entity_counts_witness :
  length (lines (topology_entities chess_topology)) = 12%nat
  ∧ length (curve_loops (topology_entities chess_topology)) = 3%nat
  ∧ length (plane_surfaces (topology_entities chess_topology)) = 2%nat.
Proof.
  destruct (entity_counts chess_topology (topology_entities chess_topology))
    as (Hl & Hc & Hs); [by vm_compute|].
  rewrite Hl, Hc, Hs. by vm_compute.
Defined.

(** ** One region, from any counters *)

Lemma seqZ_length_eq {A} (tag : A → Z) (l : list A) m n :
  tag <$> l = seqZ m (Z.of_nat n) → n = length l.
Proof.
  intros H. apply (f_equal length) in H.
  rewrite length_fmap, length_seqZ in H. lia.
Qed.

(** X8. Whatever the four counters a region is compiled from, its points,
    lines and curve loops are tagged consecutively from the counter of
    their kind, its plane surface gets the surface counter, and each
    counter returned is the counter given plus the number of entities of
    the kind the region produced. *)
Theorem region_advances_counters polygon level
    point_tag line_tag curve_loop_tag plane_surface_tag
    e point_tag' line_tag' curve_loop_tag' plane_surface_tag' :
  bubble_to_gmsh_entities polygon level
    point_tag line_tag curve_loop_tag plane_surface_tag
  = Ok (e, point_tag', line_tag', curve_loop_tag', plane_surface_tag') →
  (Point.tag <$> points e = seqZ point_tag (Z.of_nat (length (points e)))
   ∧ point_tag' = point_tag + Z.of_nat (length (points e)))
  ∧ (Line.tag <$> lines e = seqZ line_tag (Z.of_nat (length (lines e)))
     ∧ line_tag' = line_tag + Z.of_nat (length (lines e)))
  ∧ (CurveLoop.tag <$> curve_loops e
       = seqZ curve_loop_tag (Z.of_nat (length (curve_loops e)))
     ∧ curve_loop_tag' = curve_loop_tag + Z.of_nat (length (curve_loops e)))
  ∧ (PlaneSurface.tag <$> plane_surfaces e = [plane_surface_tag]
     ∧ plane_surface_tag' = plane_surface_tag + Z.of_nat (length (plane_surfaces e))).
Proof.
  intros He. apply bubble_to_gmsh_entities_inv in He as [_ He].
  inversion He; subst. clear He.
  unfold polygon_entities. cbn [points lines curve_loops plane_surfaces].
  pose proof (rings_points_tags (polygon_rings polygon) point_tag) as Hp.
  pose proof (rings_lines_tags (polygon_rings polygon) point_tag line_tag) as Hl.
  pose proof (rings_loops_tags (polygon_rings polygon) line_tag curve_loop_tag) as Hc.
  rewrite <-(seqZ_length_eq _ _ _ _ Hp), <-(seqZ_length_eq _ _ _ _ Hl).
  rewrite <-(seqZ_length_eq _ _ _ _ Hc).
  repeat split; done.
Qed.

(** The holed square compiled from the counters 10, 20, 30 and 40. *)
Lemma region_advances_counters_witness :
  ∃ e,
    bubble_to_gmsh_entities holed_square 0 10 20 30 40 = Ok (e, 18, 28, 32, 41)
    ∧ Point.tag <$> points e = seqZ 10 8
    ∧ Line.tag <$> lines e = seqZ 20 8.
Proof.
  eexists. split; [by vm_compute|].
  match goal with
  | |- Point.tag <$> points ?e = _ ∧ _ =>
      destruct (region_advances_counters holed_square 0 10 20 30 40 e 18 28 32 41)
        as ((Hp & _) & (Hl & _) & _); [by vm_compute|]
  end.
  rewrite Hp, Hl. by vm_compute.
Defined.

(** ** Regions compiled earlier *)

Lemma bubbles_entities_app l1 l2 point_tag line_tag curve_loop_tag plane_surface_tag :
  bubbles_entities (l1 ++ l2) point_tag line_tag curve_loop_tag plane_surface_tag
  = bubbles_entities l1 point_tag line_tag curve_loop_tag plane_surface_tag
    ++ bubbles_entities l2
         (point_tag + Z.of_nat (bubbles_size l1))
         (line_tag + Z.of_nat (bubbles_size l1))
         (curve_loop_tag + Z.of_nat (bubbles_rings l1))
         (plane_surface_tag + Z.of_nat (length l1)).
Proof.
  revert point_tag line_tag curve_loop_tag plane_surface_tag.
  induction l1 as [|[polygon level] l1 IH]; intros pt lt clt pst.
  - simpl. by rewrite !Z.add_0_r.
  - rewrite <-app_comm_cons. cbn [bubbles_entities]. rewrite IH.
    rewrite bubbles_size_cons, bubbles_rings_cons. cbn [length app].
    f_equal. f_equal. f_equal; lia.
Qed.

Lemma bubbles_ok_app l1 l2 :
  bubbles_ok (l1 ++ l2) = bubbles_ok l1 && bubbles_ok l2.
Proof. unfold bubbles_ok. apply forallb_app. Qed.

(** X9. Regions added at the end of the input never change what the
    regions before them compile to: if the run on a longer input returns,
    the run on the shorter input returns too, and its points, lines, curve
    loops and plane surfaces are the first ones of the longer run, tags
    included. *)
Theorem earlier_regions_unchanged hole_levels bubbles more e' :
  topology_to_gmsh_entities (mkTopology (bubbles ++ more) hole_levels) = Ok e' →
  ∃ e,
    topology_to_gmsh_entities (mkTopology bubbles hole_levels) = Ok e
    ∧ points e `prefix_of` points e'
    ∧ lines e `prefix_of` lines e'
    ∧ curve_loops e `prefix_of` curve_loops e'
    ∧ plane_surfaces e `prefix_of` plane_surfaces e'.
Proof.
  intros He'. apply topology_to_gmsh_entities_inv in He' as [Hok ->].
  cbn [holes flatten] in Hok. rewrite non_holes_app, bubbles_ok_app in Hok.
  apply andb_prop in Hok as [Hok _].
  eexists. split; [by apply topology_to_gmsh_entities_ok|].
  unfold topology_entities. cbn [holes flatten points lines curve_loops plane_surfaces].
  rewrite non_holes_app, bubbles_entities_app, !bind_app.
  repeat split; by apply prefix_app_r.
Qed.

Lemma earlier_regions_unchanged_witness :
  ∃ e,
    topology_to_gmsh_entities (mkTopology [(holed_square, 2); (square_polygon, 1)] {[1]})
    = Ok e
    ∧ points e `prefix_of` points (topology_entities chess_topology).
Proof.
  destruct (earlier_regions_unchanged {[1]} [(holed_square, 2); (square_polygon, 1)]
              [(far_polygon, 2)] (topology_entities chess_topology))
    as (e & He & Hp & _); [by vm_compute|].
  exists e. split; [exact He|exact Hp].
Defined.

(** ** Lines from a point to itself *)

Lemma ring_lines_self_loop n point_tag line_tag :
  Exists (λ l, Line.start_tag l = Line.end_tag l) (ring_lines n point_tag line_tag)
  ↔ n = 1%nat.
Proof.
  unfold ring_lines. rewrite Exists_fmap, Exists_exists. simpl. split.
  - intros (i & Hi & Heq). apply elem_of_seq in Hi as [_ Hi]. simpl in Hi.
    assert (S i mod n = i)%nat as Hmod by lia.
    destruct (decide (S i < n)%nat) as [Hlt|Hge].
    + rewrite Nat.mod_small in Hmod by done. lia.
    + assert (S i = n) as <- by lia.
      rewrite Nat.Div0.mod_same in Hmod. lia.
  - intros ->. exists 0%nat. split; [apply elem_of_seq; lia|done].
Qed.

Lemma rings_lines_self_loop rings point_tag line_tag :
  Exists (λ l, Line.start_tag l = Line.end_tag l)
         (rings_lines rings point_tag line_tag)
  ↔ Exists (λ r : ring, length r = 2%nat) rings.
Proof.
  revert point_tag line_tag.
  induction rings as [|r rings IH]; intros pt lt; cbn [rings_lines].
  - by rewrite !Exists_nil.
  - rewrite Exists_app, Exists_cons, ring_lines_self_loop, IH.
    unfold ring_size. split; (intros [H|H]; [left; lia|by right]).
Qed.

Lemma bubbles_lines_self_loop bubbles point_tag line_tag curve_loop_tag plane_surface_tag :
  Exists (λ l, Line.start_tag l = Line.end_tag l)
         (bubbles_entities bubbles point_tag line_tag curve_loop_tag plane_surface_tag
          ≫= lines)
  ↔ Exists (λ b : Polygon * Z,
              Exists (λ r : ring, length r = 2%nat) (polygon_rings b.1)) bubbles.
Proof.
  revert point_tag line_tag curve_loop_tag plane_surface_tag.
  induction bubbles as [|[polygon level] bubbles IH]; intros pt lt clt pst.
  - simpl. by rewrite !Exists_nil.
  - cbn [bubbles_entities]. rewrite bind_cons, Exists_app, Exists_cons, IH.
    cbn [polygon_entities lines]. by rewrite rings_lines_self_loop.
Qed.

(** X10. A run that returns has a line from a point to itself exactly when
    some ring of a non-hole polygon has exactly two coordinates, last one
    included: such a ring compiles to a single point. Every longer ring
    gives lines between two different points only. *)
Theorem self_loop_iff_two_coordinate_ring topo e :
  topology_to_gmsh_entities topo = Ok e →
  Exists (λ l, Line.start_tag l = Line.end_tag l) (lines e)
  ↔ Exists (λ b : Polygon * Z,
              Exists (λ r : ring, length r = 2%nat) (polygon_rings b.1))
           (non_holes (holes topo) (flatten topo)).
Proof.
  intros He. apply topology_to_gmsh_entities_inv in He as [_ ->].
  apply bubbles_lines_self_loop.
Qed.

(** A polygon whose exterior ring has the two coordinates (0,0), (0,0). *)
Lemma self_loop_iff_two_coordinate_ring_witness :
  Exists (λ l, Line.start_tag l = Line.end_tag l)
         (lines (topology_entities
                   (mkTopology [(mkPolygon [(0, 0); (0, 0)]%float [], 0)] ∅))).
Proof.
  assert (topology_to_gmsh_entities
            (mkTopology [(mkPolygon [(0, 0); (0, 0)]%float [], 0)] ∅)
          = Ok (topology_entities
                  (mkTopology [(mkPolygon [(0, 0); (0, 0)]%float [], 0)] ∅)))
    as Hrun by (by vm_compute).
  apply (proj2 (self_loop_iff_two_coordinate_ring _ _ Hrun)).
  left. by left.
Defined.

(** ** Positive tags *)

Lemma Forall_pos_tags {A} (tag : A → Z) (l : list A) n :
  tag <$> l = seqZ 1 n → Forall (λ a, 0 < tag a) l.
Proof.
  intros Htags. rewrite Forall_forall. intros a Ha.
  assert (tag a ∈ seqZ 1 n) as Hin.
  { rewrite <-Htags. by apply list_elem_of_fmap_2. }
  apply elem_of_seqZ in Hin. lia.
Qed.

(** X11. In a run that returns, every point, line, curve loop and plane
    surface has a positive tag, and so has every entity a physical group
    lists. The tags of the physical groups are all positive exactly when
    no non-hole region has a negative level: a region of level -1 gives the
    group tag 0. *)
Theorem tags_positive topo e :
  topology_to_gmsh_entities topo = Ok e →
  Forall (λ p, 0 < Point.tag p) (points e)
  ∧ Forall (λ l, 0 < Line.tag l) (lines e)
  ∧ Forall (λ c, 0 < CurveLoop.tag c) (curve_loops e)
  ∧ Forall (λ s, 0 < PlaneSurface.tag s) (plane_surfaces e)
  ∧ Forall (λ g, Forall (λ t, 0 < t) (PhysicalGroup.entity_tags g))
           (physical_groups e)
  ∧ (Forall (λ g, 0 < PhysicalGroup.tag g) (physical_groups e)
     ↔ Forall (λ b : Polygon * Z, 0 ≤ b.2)
              (non_holes (holes topo) (flatten topo))).
Proof.
  intros He. apply topology_to_gmsh_entities_inv in He as [_ ->].
  unfold topology_entities.
  cbn [points lines curve_loops plane_surfaces physical_groups].
  set (bubbles := non_holes (holes topo) (flatten topo)).
  repeat split.
  - eapply Forall_pos_tags, bubbles_points_tags.
  - eapply Forall_pos_tags, bubbles_lines_tags.
  - eapply Forall_pos_tags, bubbles_loops_tags.
  - eapply Forall_pos_tags, bubbles_surfaces_tags.
  - rewrite Forall_forall. intros g Hg. rewrite Forall_forall. intros t Ht.
    destruct (merged_groups_sound _ _ _ Hg Ht) as (s & Hs & _ & Hts).
    assert (t ∈ bubbles_groups bubbles 1 ≫= PhysicalGroup.entity_tags) as Hin.
    { apply list_elem_of_bind. eauto. }
    rewrite bubbles_groups_entity_tags in Hin. apply elem_of_seqZ in Hin. lia.
  - intros Hpos. rewrite Forall_forall. intros [p l] Hb. simpl.
    assert (l + 1 ∈ PhysicalGroup.tag <$> merged_groups (bubbles_groups bubbles 1))
      as Hin.
    { rewrite elem_of_merged_groups_tags, levels_of_bubbles_groups.
      apply list_elem_of_fmap. by exists (p, l). }
    apply list_elem_of_fmap in Hin as (g & Hg & Hin).
    rewrite Forall_forall in Hpos. specialize (Hpos g Hin). lia.
  - intros Hlevels. rewrite Forall_forall. intros g Hg.
    assert (PhysicalGroup.tag g
            ∈ PhysicalGroup.tag <$> merged_groups (bubbles_groups bubbles 1)) as Hin
      by by apply list_elem_of_fmap_2.
    rewrite elem_of_merged_groups_tags, levels_of_bubbles_groups in Hin.
    apply list_elem_of_fmap in Hin as ([p l] & -> & Hb).
    rewrite Forall_forall in Hlevels. specialize (Hlevels _ Hb). simpl in *. lia.
Qed.

(** A region of level -1: its group has the tag 0. *)
Lemma tags_positive_witness :
  Forall (λ p, 0 < Point.tag p)
         (points (topology_entities (mkTopology [(square_polygon, -1)] ∅)))
  ∧ PhysicalGroup.tag <$>
      physical_groups (topology_entities (mkTopology [(square_polygon, -1)] ∅))
    = [0].
Proof.
  split; [|by vm_compute].
  apply (tags_positive (mkTopology [(square_polygon, -1)] ∅)). by vm_compute.
Defined.

(** * The gmsh session *)

(** ** Scripts in order *)

Lemma accept_all_app k calls1 calls2 :
  accept_all k (calls1 ++ calls2)
  = k' ← accept_all k calls1; accept_all k' calls2.
Proof.
  revert k. induction calls1 as [|c calls1 IH]; intros k; [done|].
  simpl. destruct (accept k c) as [k'|]; simpl; [apply IH|done].
Qed.

Lemma forallb_defined (X : gset Z) (ts : list Z) :
  Forall (λ t, t ∈ X) ts → forallb (λ t, bool_decide (t ∈ X)) ts = true.
Proof.
  induction 1 as [|t ts Ht _ IH]; [done|].
  simpl. by rewrite bool_decide_true, IH.
Qed.

Lemma list_to_set_step (X : gset Z) t ts :
  list_to_set ts ∪ ({[t]} ∪ X) = list_to_set (t :: ts) ∪ X.
Proof. simpl. by rewrite (assoc_L (∪)), (union_comm_L (list_to_set ts)). Qed.

(** One loop of calls that each define one tag of a kind: [K] builds the
    kernel from the tags of that kind, [guard] is what a call needs
    besides a new tag. *)
Lemma accept_loop {A} (tag : A → Z) (call_of : A → gmsh_call)
    (K : gset Z → kernel) (guard : A → Prop) (items : list A) (X : gset Z) :
  (∀ Y a, guard a → tag a ∉ Y →
          accept (K Y) (call_of a) = Some (K ({[tag a]} ∪ Y))) →
  NoDup (tag <$> items) →
  Forall guard items →
  Forall (λ a, tag a ∉ X) items →
  accept_all (K X) (call_of <$> items)
  = Some (K (list_to_set (tag <$> items) ∪ X)).
Proof.
  intros Hstep. revert X. induction items as [|a items IH]; intros X Hnd Hg Hnew.
  - simpl. by rewrite (left_id_L ∅ (∪)).
  - rewrite fmap_cons in Hnd. apply NoDup_cons in Hnd as [Ha Hnd].
    apply Forall_cons in Hg as [Hga Hg]. apply Forall_cons in Hnew as [HaX Hnew].
    rewrite !fmap_cons. cbn [accept_all]. rewrite Hstep by done.
    cbn [mbind option_bind]. rewrite IH; [by rewrite list_to_set_step|done|done|].
    rewrite Forall_forall in Hnew. rewrite Forall_forall. intros b Hb.
    rewrite not_elem_of_union, not_elem_of_singleton. split; [|by apply Hnew].
    intros Heq. apply Ha. rewrite <-Heq. by apply list_elem_of_fmap_2.
Qed.

Lemma Forall_not_in_empty {A} (tag : A → Z) (items : list A) :
  Forall (λ a, tag a ∉ (∅ : gset Z)) items.
Proof. apply Forall_forall. intros a _. apply not_elem_of_empty. Qed.

Lemma in_defined (ts : list Z) t : t ∈ ts → t ∈ (list_to_set ts ∪ ∅ : gset Z).
Proof. intros Ht. by apply elem_of_union_l, elem_of_list_to_set. Qed.

(** The entity calls of a coherent dictionary, issued in an open session
    without entities, define exactly its tags. *)
Lemma accept_entity_calls e correct_curve_loops :
  coherent e →
  accept_all (mkKernel true ∅ ∅ ∅ ∅ ∅) (entity_calls e correct_curve_loops)
  = Some (mkKernel true
            (list_to_set (Point.tag <$> points e) ∪ ∅)
            (list_to_set (Line.tag <$> lines e) ∪ ∅)
            (list_to_set (CurveLoop.tag <$> curve_loops e) ∪ ∅)
            (list_to_set (PlaneSurface.tag <$> plane_surfaces e) ∪ ∅)
            (list_to_set (PhysicalGroup.tag <$> physical_groups e) ∪ ∅)).
Proof.
  intros (Hp & Hl & Hc & Hs & Hg & Hlines & Hloops & Hsurfaces & Hgroups).
  unfold entity_calls.
  set (P := (list_to_set (Point.tag <$> points e) ∪ ∅ : gset Z)).
  set (L := (list_to_set (Line.tag <$> lines e) ∪ ∅ : gset Z)).
  set (C := (list_to_set (CurveLoop.tag <$> curve_loops e) ∪ ∅ : gset Z)).
  set (S := (list_to_set (PlaneSurface.tag <$> plane_surfaces e) ∪ ∅ : gset Z)).
  rewrite accept_all_app.
  rewrite (accept_loop Point.tag _ (λ X, mkKernel true X ∅ ∅ ∅ ∅) (λ _, True)
             (points e) ∅);
    [|intros Y a _ Hnew; simpl; by rewrite bool_decide_true
     |done|by apply Forall_true|apply Forall_not_in_empty].
  cbn [mbind option_bind]. fold P. rewrite accept_all_app.
  rewrite (accept_loop Line.tag _ (λ X, mkKernel true P X ∅ ∅ ∅)
             (λ l, Line.start_tag l ∈ Point.tag <$> points e
                   ∧ Line.end_tag l ∈ Point.tag <$> points e)
             (lines e) ∅);
    [|intros Y a [Hs' He'] Hnew; simpl;
      by rewrite !bool_decide_true by (done || by apply in_defined)
     |done|done|apply Forall_not_in_empty].
  cbn [mbind option_bind]. fold L. rewrite accept_all_app.
  rewrite (accept_loop CurveLoop.tag _ (λ X, mkKernel true P L X ∅ ∅)
             (λ c, Forall (λ t, t ∈ Line.tag <$> lines e) (CurveLoop.line_tags c))
             (curve_loops e) ∅);
    [|intros Y a Hrefs Hnew; simpl; rewrite forallb_defined, bool_decide_true;
      [done|done|eapply Forall_impl; [exact Hrefs|]; intros t; apply in_defined]
     |done|done|apply Forall_not_in_empty].
  cbn [mbind option_bind]. fold C. rewrite accept_all_app.
  rewrite (accept_loop PlaneSurface.tag _ (λ X, mkKernel true P L C X ∅)
             (λ s, Forall (λ t, t ∈ CurveLoop.tag <$> curve_loops e)
                          (PlaneSurface.curve_loop_tags s))
             (plane_surfaces e) ∅);
    [|intros Y a Hrefs Hnew; simpl; rewrite forallb_defined, bool_decide_true;
      [done|done|eapply Forall_impl; [exact Hrefs|]; intros t; apply in_defined]
     |done|done|apply Forall_not_in_empty].
  cbn [mbind option_bind]. fold S.
  rewrite (accept_loop PhysicalGroup.tag _ (λ X, mkKernel true P L C S X)
             (λ g, PhysicalGroup.dim g = two
                   ∧ Forall (λ t, t ∈ PlaneSurface.tag <$> plane_surfaces e)
                            (PhysicalGroup.entity_tags g))
             (physical_groups e) ∅);
    [|intros Y a [Hdim Hrefs] Hnew; simpl; rewrite Hdim; simpl;
      rewrite forallb_defined, bool_decide_true;
      [done|done|eapply Forall_impl; [exact Hrefs|]; intros t; apply in_defined]
     |done|done|apply Forall_not_in_empty].
  done.
Qed.

(** ** The compiled entity set is coherent *)

Lemma elem_of_join_fmap {A} (f : A → list Z) (l : list A) a t :
  a ∈ l → t ∈ f a → t ∈ mjoin (f <$> l).
Proof.
  intros Ha Ht. apply list_elem_of_join. exists (f a).
  split; [done|]. by apply list_elem_of_fmap_2.
Qed.

Lemma topology_entities_coherent topo : coherent (topology_entities topo).
Proof.
  unfold coherent, topology_entities.
  cbn [points lines curve_loops plane_surfaces physical_groups].
  set (bubbles := non_holes (holes topo) (flatten topo)).
  set (ents := bubbles_entities bubbles 1 1 1 1).
  pose proof (bubbles_points_tags bubbles 1 1 1 1) as Hp.
  pose proof (bubbles_lines_tags bubbles 1 1 1 1) as Hl.
  pose proof (bubbles_loops_tags bubbles 1 1 1 1) as Hc.
  pose proof (bubbles_surfaces_tags bubbles 1 1 1 1) as Hs.
  fold ents in Hp, Hl, Hc, Hs.
  split; [rewrite Hp; apply NoDup_seqZ|].
  split; [rewrite Hl; apply NoDup_seqZ|].
  split; [rewrite Hc; apply NoDup_seqZ|].
  split; [rewrite Hs; apply NoDup_seqZ|].
  split; [apply merged_groups_NoDup|].
  split; [|split; [|split]].
  - rewrite Forall_forall. intros l Hl'. rewrite Hp. split.
    + rewrite <-(bubbles_lines_start_tags bubbles 1 1 1 1).
      by apply list_elem_of_fmap_2.
    + rewrite <-(bubbles_lines_end_tags bubbles 1 1 1 1).
      by apply list_elem_of_fmap_2.
  - rewrite Forall_forall. intros c Hc'. rewrite Forall_forall. intros t Ht.
    rewrite Hl, <-(bubbles_loops_line_tags bubbles 1 1 1 1).
    by eapply elem_of_join_fmap.
  - rewrite Forall_forall. intros s' Hs'. rewrite Forall_forall. intros t Ht.
    rewrite Hc, <-(bubbles_surfaces_loop_tags bubbles 1 1 1 1).
    by eapply elem_of_join_fmap.
  - pose proof (merged_groups_ascending bubbles 1) as Hasc.
    rewrite Forall_forall in Hasc. rewrite Forall_forall. intros g Hg.
    destruct (Hasc g Hg) as (Hdim & _ & _). split; [done|].
    rewrite Forall_forall. intros t Ht.
    destruct (merged_groups_sound _ _ _ Hg Ht) as (s' & Hs' & _ & Hts).
    rewrite Hs, <-(bubbles_groups_entity_tags bubbles 1).
    apply list_elem_of_bind. eauto.
Qed.

(** ** Only coherent entity sets give a script in order *)

Lemma forallb_defined_inv (X : gset Z) (ts : list Z) :
  forallb (λ t, bool_decide (t ∈ X)) ts = true → Forall (λ t, t ∈ X) ts.
Proof.
  induction ts as [|t ts IH]; simpl; intros H; [constructor|].
  apply andb_prop in H as [Ht H]. apply bool_decide_eq_true in Ht.
  constructor; [done|by apply IH].
Qed.

Lemma in_defined_inv (ts : list Z) t : t ∈ (list_to_set ts ∪ ∅ : gset Z) → t ∈ ts.
Proof.
  rewrite elem_of_union, elem_of_list_to_set. intros [Ht|Ht]; [done|].
  by apply elem_of_empty in Ht.
Qed.

Lemma accept_loop_inv {A} (tag : A → Z) (call_of : A → gmsh_call)
    (K : gset Z → kernel) (guard : A → Prop) (items : list A) (X : gset Z) k' :
  (∀ Y a k, accept (K Y) (call_of a) = Some k →
            guard a ∧ (tag a ∉ Y) ∧ k = K ({[tag a]} ∪ Y)) →
  accept_all (K X) (call_of <$> items) = Some k' →
  NoDup (tag <$> items) ∧ Forall guard items
  ∧ Forall (λ a, tag a ∉ X) items
  ∧ k' = K (list_to_set (tag <$> items) ∪ X).
Proof.
  intros Hstep. revert X. induction items as [|a items IH]; intros X Hall.
  - simpl in Hall. inversion Hall. simpl. rewrite (left_id_L ∅ (∪)).
    repeat split; constructor.
  - rewrite fmap_cons in Hall. cbn [accept_all] in Hall.
    destruct (accept (K X) (call_of a)) as [k|] eqn:Ha; [|done].
    apply Hstep in Ha as (Hg & Hnew & ->). cbn [mbind option_bind] in Hall.
    apply IH in Hall as (Hnd & Hguards & Hnew' & ->).
    rewrite Forall_forall in Hnew'.
    split; [|split; [by constructor|split; [|by rewrite list_to_set_step]]].
    + rewrite fmap_cons. apply NoDup_cons. split; [|done].
      intros Hin. apply list_elem_of_fmap in Hin as (b & Heq & Hb).
      apply (Hnew' b Hb). rewrite <-Heq.
      by apply elem_of_union_l, elem_of_singleton.
    + constructor; [done|]. rewrite Forall_forall. intros b Hb Hx.
      apply (Hnew' b Hb). by apply elem_of_union_r.
Qed.

(** The entity calls are all in order only for a coherent dictionary. *)
Lemma accept_entity_calls_inv e correct_curve_loops k :
  accept_all (mkKernel true ∅ ∅ ∅ ∅ ∅) (entity_calls e correct_curve_loops) = Some k →
  coherent e.
Proof.
  unfold entity_calls. intros Hall.
  set (P := (list_to_set (Point.tag <$> points e) ∪ ∅ : gset Z)).
  set (L := (list_to_set (Line.tag <$> lines e) ∪ ∅ : gset Z)).
  set (C := (list_to_set (CurveLoop.tag <$> curve_loops e) ∪ ∅ : gset Z)).
  set (S := (list_to_set (PlaneSurface.tag <$> plane_surfaces e) ∪ ∅ : gset Z)).
  rewrite accept_all_app in Hall.
  destruct (accept_all _ (_ <$> points e)) as [k1|] eqn:H1; [|done].
  apply (accept_loop_inv Point.tag _ (λ X, mkKernel true X ∅ ∅ ∅ ∅) (λ _, True)
           (points e) ∅) in H1 as (Hp & _ & _ & ->).
  2:{ intros Y a k0 Hk. simpl in Hk. case_bool_decide; [|done].
      by inversion Hk. }
  cbn [mbind option_bind] in Hall. fold P in Hall. rewrite accept_all_app in Hall.
  destruct (accept_all _ (_ <$> lines e)) as [k2|] eqn:H2; [|done].
  apply (accept_loop_inv Line.tag _ (λ X, mkKernel true P X ∅ ∅ ∅)
           (λ l, Line.start_tag l ∈ Point.tag <$> points e
                 ∧ Line.end_tag l ∈ Point.tag <$> points e)
           (lines e) ∅) in H2 as (Hl & Hlines & _ & ->).
  2:{ intros Y a k0 Hk. simpl in Hk. repeat (case_bool_decide; [|done]).
      simpl in Hk. inversion Hk. split; [|done].
      split; by apply in_defined_inv. }
  cbn [mbind option_bind] in Hall. fold L in Hall. rewrite accept_all_app in Hall.
  destruct (accept_all _ (_ <$> curve_loops e)) as [k3|] eqn:H3; [|done].
  apply (accept_loop_inv CurveLoop.tag _ (λ X, mkKernel true P L X ∅ ∅)
           (λ c, Forall (λ t, t ∈ Line.tag <$> lines e) (CurveLoop.line_tags c))
           (curve_loops e) ∅) in H3 as (Hc & Hloops & _ & ->).
  2:{ intros Y a k0 Hk. simpl in Hk.
      destruct (forallb _ _) eqn:Hrefs; [|done]. case_bool_decide; [|done].
      simpl in Hk. inversion Hk. split; [|done].
      apply forallb_defined_inv in Hrefs.
      eapply Forall_impl; [exact Hrefs|]. intros t. apply in_defined_inv. }
  cbn [mbind option_bind] in Hall. fold C in Hall. rewrite accept_all_app in Hall.
  destruct (accept_all _ (_ <$> plane_surfaces e)) as [k4|] eqn:H4; [|done].
  apply (accept_loop_inv PlaneSurface.tag _ (λ X, mkKernel true P L C X ∅)
           (λ s, Forall (λ t, t ∈ CurveLoop.tag <$> curve_loops e)
                        (PlaneSurface.curve_loop_tags s))
           (plane_surfaces e) ∅) in H4 as (Hs & Hsurfaces & _ & ->).
  2:{ intros Y a k0 Hk. simpl in Hk.
      destruct (forallb _ _) eqn:Hrefs; [|done]. case_bool_decide; [|done].
      simpl in Hk. inversion Hk. split; [|done].
      apply forallb_defined_inv in Hrefs.
      eapply Forall_impl; [exact Hrefs|]. intros t. apply in_defined_inv. }
  cbn [mbind option_bind] in Hall. fold S in Hall.
  apply (accept_loop_inv PhysicalGroup.tag _ (λ X, mkKernel true P L C S X)
           (λ g, PhysicalGroup.dim g = two
                 ∧ Forall (λ t, t ∈ PlaneSurface.tag <$> plane_surfaces e)
                          (PhysicalGroup.entity_tags g))
           (physical_groups e) ∅) in Hall as (Hg & Hgroups & _ & _).
  2:{ intros Y a k0 Hk. simpl in Hk.
      case_bool_decide as Hdim; [|done].
      destruct (forallb _ _) eqn:Hrefs; [|done]. case_bool_decide; [|done].
      simpl in Hk. inversion Hk. split; [|done]. split.
      - by destruct (PhysicalGroup.dim a).
      - apply forallb_defined_inv in Hrefs.
        eapply Forall_impl; [exact Hrefs|]. intros t. apply in_defined_inv. }
  done.
Qed.

(** ** What the entity calls are not *)

Lemma omap_fmap_none {A B C} (f : B → option C) (g : A → B) (l : list A) :
  (∀ a, f (g a) = None) → omap f (g <$> l) = [].
Proof.
  intros Hnone. induction l as [|a l IH]; [done|].
  rewrite fmap_cons. cbn [omap list_omap]. by rewrite Hnone.
Qed.

Lemma filter_fmap_all {A} (P : gmsh_call → bool) (g : A → gmsh_call) (l : list A) :
  (∀ a, P (g a) = true) → filter P (g <$> l) = g <$> l.
Proof.
  intros Hall. induction l as [|a l IH]; [done|].
  rewrite fmap_cons, filter_cons_True by (by rewrite Hall). by rewrite IH.
Qed.

Lemma entity_calls_write_nothing e correct_curve_loops :
  written_files (entity_calls e correct_curve_loops) = []
  ∧ options_set (entity_calls e correct_curve_loops) = [].
Proof.
  unfold written_files, options_set, entity_calls.
  rewrite !omap_app. by rewrite !omap_fmap_none.
Qed.

Lemma entity_calls_define e correct_curve_loops :
  filter defines_entity (entity_calls e correct_curve_loops)
  = entity_calls e correct_curve_loops.
Proof.
  unfold entity_calls. rewrite !filter_app. by rewrite !filter_fmap_all.
Qed.


(** ** Running the statements against a kernel *)

Lemma run_statements_app gmsh returned p1 p2 :
  run_statements gmsh returned (p1 ++ p2)
  = match run_statements gmsh returned p1 with
    | (returned', None) => run_statements gmsh returned' p2
    | result => result
    end.
Proof.
  revert returned. induction p1 as [|[exn|c] p1 IH]; intros returned; simpl.
  - done.
  - done.
  - destruct (gmsh returned c); [apply IH|done].
Qed.

(** The calls that returned are the statements up to the one that raised,
    or all of them. *)
Lemma run_statements_inv gmsh returned statements ret out :
  run_statements gmsh returned statements = (ret, out) →
  ∃ done,
    ret = returned ++ done
    ∧ match out with
      | None => statements = inr <$> done
      | Some exn =>
          ∃ x rest,
            statements = (inr <$> done) ++ x :: rest
            ∧ (x = inl exn
               ∨ ∃ c, x = inr c ∧ exn = GmshError c ∧ gmsh ret c = false)
      end.
Proof.
  revert returned. induction statements as [|[exn|c] statements IH];
    intros returned Hrun; simpl in Hrun.
  - inversion Hrun; subst. exists []. by rewrite app_nil_r.
  - inversion Hrun; subst. exists []. rewrite app_nil_r. split; [done|].
    exists (inl exn), statements. split; [done|by left].
  - destruct (gmsh returned c) eqn:Hc.
    + apply IH in Hrun as (done & -> & Hout). exists (c :: done).
      rewrite <-app_assoc. split; [done|]. destruct out as [exn|].
      * destruct Hout as (x & rest & -> & Hx). exists x, rest. split; [done|].
        by rewrite <-app_assoc in Hx.
      * by rewrite Hout.
    + inversion Hrun; subst. exists []. rewrite app_nil_r. split; [done|].
      exists (inr c), statements. split; [done|]. right. eauto.
Qed.

Lemma statement_calls_inr calls : statement_calls (inr <$> calls) = calls.
Proof.
  unfold statement_calls. induction calls as [|c calls IH]; [done|].
  rewrite fmap_cons. cbn [omap list_omap]. by rewrite IH.
Qed.

Lemma statement_calls_app p1 p2 :
  statement_calls (p1 ++ p2) = statement_calls p1 ++ statement_calls p2.
Proof. apply omap_app. Qed.

(** A list that stops before the end of [l ++ [y]] stops within [l]. *)
Lemma prefix_before_last {A} (l1 l : list A) x rest y :
  l1 ++ x :: rest = l ++ [y] → ∃ rest', l = l1 ++ rest'.
Proof.
  revert l. induction l1 as [|a l1 IH]; intros l Heq; [by eexists|].
  destruct l as [|b l].
  - simpl in Heq. inversion Heq as [[Ha Hnil]].
    symmetry in Hnil. by apply app_cons_not_nil in Hnil.
  - simpl in Heq. inversion Heq as [[Ha Hrest]].
    destruct (IH l Hrest) as [rest' ->]. by exists rest'.
Qed.

(** The two functions as their statements: the head, the tail, and
    [gmsh.finalize()]. *)
Lemma write_geo_statements gmsh file_name e correct_curve_loops :
  write_geo gmsh file_name e correct_curve_loops
  = run_statements gmsh []
      (((inr <$> session_head file_name e correct_curve_loops)
        ++ write_geo_tail file_name)
       ++ [inr gmsh_finalize]).
Proof.
  unfold write_geo, session_head, entity_calls, write_geo_tail.
  rewrite !fmap_app, <-!list_fmap_compose, <-!app_assoc. done.
Qed.

Lemma mesh_statements gmsh e file_name dim write_geo correct_curve_loops save_all :
  dim = 2 ∨ dim = 3 →
  mesh gmsh e file_name dim write_geo correct_curve_loops save_all
  = run_statements gmsh []
      (((inr <$> session_head file_name e correct_curve_loops)
        ++ mesh_tail file_name dim write_geo save_all)
       ++ [inr gmsh_finalize]).
Proof.
  intros Hdim. unfold mesh, session_head, entity_calls, mesh_tail.
  rewrite bool_decide_true by done.
  rewrite !fmap_app, <-!list_fmap_compose, <-!app_assoc. done.
Qed.

Lemma write_geo_tail_quiet file_name : forallb quiet (write_geo_tail file_name) = true.
Proof.
  unfold write_geo_tail, write_to.
  by destruct (path_with_suffix file_name ".geo_unrolled").
Qed.

Lemma mesh_tail_quiet file_name dim write_geo save_all :
  forallb quiet (mesh_tail file_name dim write_geo save_all) = true.
Proof.
  unfold mesh_tail, write_to.
  by destruct save_all, write_geo, (path_with_suffix file_name ".msh"),
    (path_with_suffix file_name ".geo_unrolled").
Qed.

Lemma quiet_calls tail :
  forallb quiet tail = true →
  Forall (λ c, neutral c = true) (statement_calls tail).
Proof.
  induction tail as [|[exn|c] tail IH]; simpl; intros Hq.
  - constructor.
  - apply andb_prop in Hq as [_ Hq]. by apply IH.
  - apply andb_prop in Hq as [Hc Hq]. unfold statement_calls.
    cbn [omap list_omap]. constructor; [done|by apply IH].
Qed.

Lemma entity_calls_defining e correct_curve_loops :
  Forall (λ c, defines_entity c = true) (entity_calls e correct_curve_loops).
Proof.
  unfold entity_calls.
  repeat (apply Forall_app; split); by apply Forall_fmap, Forall_true.
Qed.

(** ** One session: head, quiet tail, [finalize] *)

Lemma accept_neutral k c :
  active k = true → neutral c = true → accept k c = Some k.
Proof. intros Hk Hc. destruct c; try done; simpl; by rewrite Hk. Qed.

Lemma accept_all_neutral k calls :
  active k = true →
  Forall (λ c, neutral c = true) calls →
  accept_all k calls = Some k.
Proof.
  intros Hk. induction 1 as [|c calls Hc _ IH]; [done|].
  simpl. by rewrite accept_neutral.
Qed.

Lemma accept_all_split k calls1 calls2 k2 :
  accept_all k (calls1 ++ calls2) = Some k2 →
  ∃ k1, accept_all k calls1 = Some k1 ∧ accept_all k1 calls2 = Some k2.
Proof.
  rewrite accept_all_app. destruct (accept_all k calls1) as [k1|]; [|done].
  simpl. eauto.
Qed.

Lemma quiet_statements tail :
  forallb quiet tail = true → Forall (λ x, quiet x = true) tail.
Proof.
  induction tail as [|x tail IH]; simpl; intros Hq; [constructor|].
  apply andb_prop in Hq as [Hx Hq]. constructor; [done|by apply IH].
Qed.

Section session.
Context (gmsh : list gmsh_call → gmsh_call → bool).
Context (file_name : Path) (e : GmshEntities) (correct_curve_loops : bool).
Context (tail : list (mesh_exn + gmsh_call)).
Context (Hquiet : forallb quiet tail = true).

Let head : list gmsh_call := session_head file_name e correct_curve_loops.
Let statements : list (mesh_exn + gmsh_call) :=
  ((inr <$> head) ++ tail) ++ [inr gmsh_finalize].

Lemma session_calls :
  statement_calls statements = head ++ statement_calls tail ++ [gmsh_finalize].
Proof using Type.
  unfold statements.
  by rewrite !statement_calls_app, statement_calls_inr, <-app_assoc.
Qed.

(** No statement raises anything but [ValueError]. *)
Lemma session_statement_kinds x :
  x ∈ statements → x = inl ValueError ∨ ∃ c, x = inr c.
Proof using Hquiet.
  unfold statements. rewrite !elem_of_app. intros [[Hx|Hx]|Hx].
  - apply list_elem_of_fmap in Hx as (c & -> & _). eauto.
  - pose proof (quiet_statements tail Hquiet) as Hq.
    rewrite Forall_forall in Hq. specialize (Hq x Hx).
    destruct x as [[]|c]; [done| |done|]; eauto.
  - apply list_elem_of_singleton in Hx as ->. eauto.
Qed.

(** A run that ends without exception made every call; a run that ends
    with one stopped among the calls before [finalize]. *)
Lemma session_end ret out :
  run_statements gmsh [] statements = (ret, out) →
  match out with
  | None => ret = head ++ statement_calls tail ++ [gmsh_finalize]
  | Some _ => ∃ rest, head ++ statement_calls tail = ret ++ rest
  end.
Proof using All.
  intros Hrun. apply run_statements_inv in Hrun as (done & -> & Hout).
  rewrite app_nil_l. destruct out as [exn|].
  - destruct Hout as (x & rest & Hst & _). unfold statements in Hst.
    symmetry in Hst. apply prefix_before_last in Hst as [rest' Hst].
    exists (statement_calls rest').
    apply (f_equal statement_calls) in Hst.
    by rewrite !statement_calls_app, !statement_calls_inr in Hst.
  - rewrite <-session_calls, Hout. by rewrite statement_calls_inr.
Qed.

Lemma head_tail_not_finalize :
  Forall (λ c, c ≠ gmsh_finalize) (head ++ statement_calls tail).
Proof using Hquiet.
  apply Forall_app. split.
  - unfold head, session_head. apply Forall_app. split.
    + by repeat constructor.
    + eapply Forall_impl; [apply entity_calls_defining|].
      intros c Hc ->. done.
  - eapply Forall_impl; [by apply quiet_calls|]. intros c Hc ->. done.
Qed.

(** [finalize] returns exactly in the runs without exception: any
    exception after [initialize] leaves the session open. *)
Lemma session_finalize ret out :
  run_statements gmsh [] statements = (ret, out) →
  match out with
  | None => last ret = Some gmsh_finalize
  | Some _ => gmsh_finalize ∉ ret
  end.
Proof using All.
  intros Hrun. apply session_end in Hrun. destruct out as [exn|].
  - destruct Hrun as [rest Hrest]. intros Hin.
    pose proof head_tail_not_finalize as Hnot. rewrite Hrest in Hnot.
    apply Forall_app in Hnot as [Hnot _].
    rewrite Forall_forall in Hnot. by apply (Hnot _ Hin).
  - rewrite Hrun, !app_assoc. apply last_snoc.
Qed.

(** The calls of a coherent dictionary, all made, are a script in
    order. *)
Lemma session_accepted :
  coherent e →
  accept_all idle (statement_calls statements) = Some idle.
Proof using Hquiet.
  intros He. rewrite session_calls. unfold head, session_head.
  cbn [app accept_all accept idle active mbind option_bind].
  rewrite accept_all_app, accept_entity_calls by done.
  cbn [mbind option_bind]. rewrite accept_all_app.
  rewrite accept_all_neutral; [done|done|by apply quiet_calls].
Qed.

(** For a coherent dictionary the calls that returned are in order, and so
    is the call that raised, if one did; a run without exception leaves a
    script in order. *)
Lemma session_in_order ret out :
  coherent e →
  run_statements gmsh [] statements = (ret, out) →
  ∃ k,
    accept_all idle ret = Some k
    ∧ (∀ c, out = Some (GmshError c) → is_Some (accept k c))
    ∧ (out = None → script_ok ret = true).
Proof using All.
  intros He Hrun. pose proof (session_accepted He) as Hall.
  apply run_statements_inv in Hrun as (done & -> & Hout).
  rewrite app_nil_l. destruct out as [exn|].
  - destruct Hout as (x & rest & Hst & Hx).
    rewrite Hst, statement_calls_app, statement_calls_inr in Hall.
    apply accept_all_split in Hall as (k & Hk & Hrest).
    exists k. split; [done|]. split; [|done].
    intros c Hc. inversion Hc; subst. clear Hc.
    assert (x = inr c) as ->.
    { destruct Hx as [->|(c' & -> & Hc' & _)]; [|by inversion Hc'].
      destruct (session_statement_kinds (inl (GmshError c))) as [?|[? ?]];
        [|done|done]. rewrite Hst. apply elem_of_app. right. left. }
    unfold statement_calls in Hrest. cbn [omap list_omap accept_all] in Hrest.
    destruct (accept k c); [by eexists|done].
  - rewrite Hout, statement_calls_inr in Hall. exists idle.
    split; [done|]. split; [done|]. intros _. unfold script_ok. by rewrite Hall.
Qed.

(** A run without exception leaves a script in order only for a coherent
    dictionary. *)
Lemma session_in_order_inv ret :
  run_statements gmsh [] statements = (ret, None) →
  script_ok ret = true →
  coherent e.
Proof using All.
  intros Hrun Hok. apply session_end in Hrun. subst ret.
  unfold script_ok, head, session_head in Hok.
  cbn [app accept_all accept idle active mbind option_bind] in Hok.
  rewrite accept_all_app in Hok.
  destruct (accept_all _ (entity_calls e correct_curve_loops)) as [k|] eqn:Hk;
    [|done].
  by eapply accept_entity_calls_inv.
Qed.

(** The entity definitions that returned do not depend on the tail. *)
Lemma session_entity_calls ret out :
  run_statements gmsh [] statements = (ret, out) →
  filter defines_entity ret
  = filter defines_entity
      (run_statements gmsh [] (inr <$> head)).1.
Proof using All.
  unfold statements. rewrite <-app_assoc, run_statements_app.
  destruct (run_statements gmsh [] (inr <$> head)) as [ret0 [exn|]] eqn:Hhead.
  - intros Hrun. by inversion Hrun.
  - intros Hrun. cbn [fst].
    apply run_statements_inv in Hrun as (done & -> & Hout).
    rewrite filter_app.
    assert (Forall (λ c, neutral c = true ∨ c = gmsh_finalize) done) as Hdone.
    { assert (∃ rest, statement_calls (tail ++ [inr gmsh_finalize]) = done ++ rest)
        as [rest Hrest].
      { destruct out as [exn|].
        - destruct Hout as (x & rest & -> & _). eexists.
          by rewrite statement_calls_app, statement_calls_inr.
        - exists []. by rewrite Hout, statement_calls_inr, app_nil_r. }
      assert (Forall (λ c, neutral c = true ∨ c = gmsh_finalize)
                (statement_calls (tail ++ [inr gmsh_finalize]))) as Hall.
      { rewrite statement_calls_app. apply Forall_app. split.
        - eapply Forall_impl; [by apply quiet_calls|]. intros c Hc. by left.
        - unfold statement_calls. cbn [omap list_omap].
          constructor; [by right|constructor]. }
      rewrite Hrest in Hall. by apply Forall_app in Hall as [Hall _]. }
    assert (filter defines_entity done = []) as ->; [|by rewrite app_nil_r].
    clear Hout. induction Hdone as [|c done Hc _ IH]; [done|].
    rewrite filter_cons_False; [done|].
    destruct Hc as [Hc| ->]; [|simpl; tauto].
    destruct c; simpl; solve [tauto|discriminate Hc].
Qed.
End session.

(** A run without exception met no statement that raises. *)
Lemma complete_no_exception gmsh returned statements ret exn :
  run_statements gmsh returned statements = (ret, None) →
  inl exn ∉ statements.
Proof.
  intros Hrun Hin. apply run_statements_inv in Hrun as (made & _ & ->).
  apply list_elem_of_fmap in Hin as (c & Hc & _). discriminate Hc.
Qed.

(** The calls that returned are the first of the calls of the session. *)
Lemma session_returned gmsh file_name e correct_curve_loops tail ret out :
  forallb quiet tail = true →
  run_statements gmsh []
    (((inr <$> session_head file_name e correct_curve_loops) ++ tail)
     ++ [inr gmsh_finalize]) = (ret, out) →
  ∃ rest,
    session_head file_name e correct_curve_loops
    ++ statement_calls tail ++ [gmsh_finalize] = ret ++ rest.
Proof.
  intros Hquiet Hrun. apply session_end in Hrun; [|done].
  destruct out as [exn|].
  - destruct Hrun as [rest Hrest]. exists (rest ++ [gmsh_finalize]).
    by rewrite !app_assoc, Hrest.
  - exists []. by rewrite app_nil_r.
Qed.

Lemma session_reorients file_name e correct_curve_loops tail :
  forallb quiet tail = true →
  Forall (reorients correct_curve_loops)
    (session_head file_name e correct_curve_loops
     ++ statement_calls tail ++ [gmsh_finalize]).
Proof.
  intros Hquiet. unfold session_head, entity_calls.
  repeat (apply Forall_app; split); try (by repeat constructor).
  1-5: by apply Forall_fmap, Forall_true.
  eapply Forall_impl; [by apply quiet_calls|]. intros c Hc. by destruct c.
Qed.

Lemma neutral_calls_define_nothing calls :
  Forall (λ c, neutral c = true) calls → filter defines_entity calls = [].
Proof.
  induction 1 as [|c calls Hc _ IH]; [done|].
  rewrite filter_cons_False; [done|].
  destruct c; simpl; solve [tauto|discriminate Hc].
Qed.

(** The entity definitions of a run without exception are those of the
    dictionary. *)
Lemma session_complete_entity_calls gmsh file_name e correct_curve_loops tail ret :
  forallb quiet tail = true →
  run_statements gmsh []
    (((inr <$> session_head file_name e correct_curve_loops) ++ tail)
     ++ [inr gmsh_finalize]) = (ret, None) →
  filter defines_entity ret = entity_calls e correct_curve_loops.
Proof.
  intros Hquiet Hrun. apply session_end in Hrun; [|done]. subst ret.
  unfold session_head. rewrite !filter_app, entity_calls_define.
  rewrite (neutral_calls_define_nothing (statement_calls tail))
    by (by apply quiet_calls).
  change (filter defines_entity [gmsh_finalize]) with (@nil gmsh_call).
  change (filter defines_entity
            [gmsh_initialize; gmsh_model_add (path_name file_name)])
    with (@nil gmsh_call).
  by rewrite !app_nil_r.
Qed.

(** ** [mesh] and [write_geo] *)

(** X12. [mesh] ends with AssertionError exactly when [dim] is neither 2
    nor 3, whatever the kernel does: the assertion is the first statement,
    and no later statement raises this exception. Not a single call has
    reached the kernel by then, so no session is left open. With dim 2 or
    3 the first thing [mesh] does is to call [gmsh.initialize()]. *)
Theorem mesh_asserts_dimension gmsh e file_name dim
    write_geo_flag correct_curve_loops save_all :
  ((mesh gmsh e file_name dim write_geo_flag correct_curve_loops save_all).2
   = Some AssertionError ↔ dim ≠ 2 ∧ dim ≠ 3)
  ∧ (dim ≠ 2 ∧ dim ≠ 3 →
     (mesh gmsh e file_name dim write_geo_flag correct_curve_loops save_all).1
     = [])
  ∧ (dim = 2 ∨ dim = 3 →
     mesh gmsh e file_name dim write_geo_flag correct_curve_loops save_all
     = ([], Some (GmshError gmsh_initialize))
     ∨ ∃ rest,
         (mesh gmsh e file_name dim write_geo_flag correct_curve_loops save_all).1
         = gmsh_initialize :: rest).
Proof.
  destruct (decide (dim = 2 ∨ dim = 3)) as [Hdim|Hdim].
  - split; [|split]; [split| |]; [|lia|lia|].
    + rewrite mesh_statements by done.
      destruct (run_statements _ _ _) as [ret out] eqn:Hrun. simpl.
      intros ->. apply run_statements_inv in Hrun as (made & _ & Hout).
      destruct Hout as (x & rest & Hst & Hx).
      assert (x = inl AssertionError) as ->.
      { destruct Hx as [->|(c & _ & Hc & _)]; [done|discriminate Hc]. }
      destruct (session_statement_kinds file_name e correct_curve_loops
                  (mesh_tail file_name dim write_geo_flag save_all)
                  (mesh_tail_quiet _ _ _ _) (inl AssertionError))
        as [Hkind|[c Hkind]]; [|discriminate Hkind..].
      rewrite Hst. apply elem_of_app. right. left.
    + intros _. unfold mesh. rewrite bool_decide_true by done.
      cbn [app run_statements]. destruct (gmsh [] gmsh_initialize); [|by left].
      right. destruct (gmsh [gmsh_initialize] _); [|by eexists].
      destruct (run_statements _ _ _) as [ret out] eqn:Hrun.
      apply run_statements_inv in Hrun as (made & -> & _). by eexists.
  - unfold mesh. rewrite bool_decide_false by done. simpl.
    split; [|split]; [split| |]; [lia|done|done|tauto].
Qed.

(** The dimension 1. *)
Lemma mesh_asserts_dimension_witness :
  mesh willing_gmsh (topology_entities square_topology) example_path 1
    true false false
  = ([], Some AssertionError).
Proof.
  destruct (mesh_asserts_dimension willing_gmsh
              (topology_entities square_topology)
              example_path 1 true false false) as (Hfail & Hcalls & _).
  apply injective_projections; [apply Hcalls; lia|apply Hfail; lia].
Defined.

(** X13. Neither function checks or repairs the entity dictionary. For a
    coherent dictionary (tags unique within each kind, every reference
    resolved, groups of dimension 2) and whatever the kernel does, the
    calls of [write_geo], and of [mesh] when dim is 2 or 3, that returned
    are in order: made in one open session, every tag defined once and
    before any call refers to it. The call in which the kernel raised, if
    it did, was in order as well. A run without exception leaves a script
    in order, closed by [finalize], exactly when the dictionary is
    coherent. *)
Theorem script_in_order_iff_coherent gmsh e file_name dim
    write_geo_flag correct_curve_loops save_all run :
  run = write_geo gmsh file_name e correct_curve_loops
  ∨ ((dim = 2 ∨ dim = 3)
     ∧ run = mesh gmsh e file_name dim write_geo_flag correct_curve_loops save_all) →
  (coherent e →
   ∃ k,
     accept_all idle run.1 = Some k
     ∧ (∀ c, run.2 = Some (GmshError c) → is_Some (accept k c))
     ∧ (run.2 = None → script_ok run.1 = true))
  ∧ (run.2 = None → script_ok run.1 = true → coherent e).
Proof.
  intros Hrun.
  assert (∃ tail,
            forallb quiet tail = true
            ∧ run_statements gmsh []
                (((inr <$> session_head file_name e correct_curve_loops) ++ tail)
                 ++ [inr gmsh_finalize]) = (run.1, run.2))
    as (tail & Hquiet & Hst).
  { rewrite <-surjective_pairing. destruct Hrun as [->|[Hdim ->]].
    - exists (write_geo_tail file_name).
      split; [apply write_geo_tail_quiet|by rewrite write_geo_statements].
    - exists (mesh_tail file_name dim write_geo_flag save_all).
      split; [apply mesh_tail_quiet|by rewrite mesh_statements]. }
  split.
  - intros He. by eapply session_in_order.
  - intros Hout Hok. rewrite Hout in Hst. by eapply session_in_order_inv.
Qed.

(** A triangle written by hand, meshed by a kernel that raises nowhere. *)
Lemma script_in_order_iff_coherent_witness :
  script_ok
    (mesh willing_gmsh triangle_entities example_path 2 true true false).1
  = true.
Proof.
  assert (coherent triangle_entities) as Hcoherent.
  { unfold coherent, triangle_entities.
    cbn [points lines curve_loops plane_surfaces physical_groups].
    apply (bool_decide_unpack _). by vm_compute. }
  destruct (proj1 (script_in_order_iff_coherent willing_gmsh triangle_entities
                     example_path 2 true true false
                     (mesh willing_gmsh triangle_entities example_path 2
                        true true false)
                     (or_intror (conj (or_introl eq_refl) eq_refl)))
              Hcoherent) as (k & _ & _ & Hok).
  apply Hok. by vm_compute.
Defined.

(** A line between two points that were never defined is handed to the
    kernel all the same; if the kernel lets it pass, the script is not
    in order. *)
Example dangling_line_script :
  (write_geo willing_gmsh example_path dangling_line_entities false).2 = None
  ∧ script_ok
      (write_geo willing_gmsh example_path dangling_line_entities false).1
    = false.
Proof. split; by vm_compute. Qed.

(** X14. The entity set of any run of the compiler that returns can be
    handed to [write_geo], and to [mesh] with dim 2 or 3, as it is:
    whatever the kernel does, the calls that returned are in order, every
    tag being defined once, in the open session, before it is referred
    to; so is the call in which the kernel raised, if it did; and a run
    without exception leaves a script in order. *)
Theorem compiled_entities_give_ordered_script gmsh topo e file_name dim
    write_geo_flag correct_curve_loops save_all run :
  topology_to_gmsh_entities topo = Ok e →
  run = write_geo gmsh file_name e correct_curve_loops
  ∨ ((dim = 2 ∨ dim = 3)
     ∧ run = mesh gmsh e file_name dim write_geo_flag correct_curve_loops save_all) →
  ∃ k,
    accept_all idle run.1 = Some k
    ∧ (∀ c, run.2 = Some (GmshError c) → is_Some (accept k c))
    ∧ (run.2 = None → script_ok run.1 = true).
Proof.
  intros He Hrun. apply topology_to_gmsh_entities_inv in He as [_ ->].
  pose proof (topology_entities_coherent topo) as Hcoherent.
  rewrite (surjective_pairing run) in Hrun.
  destruct Hrun as [Hrun|[Hdim Hrun]]; symmetry in Hrun.
  - rewrite write_geo_statements in Hrun.
    eapply session_in_order; [apply write_geo_tail_quiet|done..].
  - rewrite mesh_statements in Hrun by done.
    eapply session_in_order; [apply mesh_tail_quiet|done..].
Qed.

(** The void topology compiles to the empty entity set. A kernel that
    raises in [gmsh.write] stops [write_geo] there: four calls returned,
    in order, and the session is still open. *)
Lemma compiled_entities_give_ordered_script_witness :
  write_geo no_write_gmsh example_path (topology_entities void_topology) true
  = ([gmsh_initialize; gmsh_model_add "chess_board";
      geo_removeAllDuplicates; geo_synchronize],
     Some (GmshError (gmsh_write "chess_board.geo_unrolled")))
  ∧ ∃ k,
      accept_all idle
        (write_geo no_write_gmsh example_path
           (topology_entities void_topology) true).1 = Some k
      ∧ is_Some (accept k (gmsh_write "chess_board.geo_unrolled")).
Proof.
  assert (topology_to_gmsh_entities void_topology
          = Ok (topology_entities void_topology)) as Hrun by (by vm_compute).
  split; [by vm_compute|].
  destruct (compiled_entities_give_ordered_script no_write_gmsh void_topology
              (topology_entities void_topology) example_path 2
              true true false
              (write_geo no_write_gmsh example_path
                 (topology_entities void_topology) true)
              Hrun (or_introl eq_refl)) as (k & Hk & Hc & _).
  exists k. split; [exact Hk|]. apply Hc. by vm_compute.
Defined.

(** X15. For the same entity set and the same [correct_curve_loops] flag,
    [mesh] (with dim 2 or 3) and [write_geo] make the same entity
    definitions in the same order, whatever the other flags. Run against
    the same kernel under the same model name, the definitions that
    returned are the same even when the kernel raises: both runs are cut
    at the same call. Two runs without exception, against any kernels and
    under any file names, both made exactly the definitions of the
    dictionary. Every curve loop handed over carries the flag as
    [reorient]. *)
Theorem mesh_and_write_geo_define_alike gmsh gmsh' e file_name file_name' dim
    write_geo_flag correct_curve_loops save_all :
  dim = 2 ∨ dim = 3 →
  (path_name file_name = path_name file_name' →
   filter defines_entity
     (mesh gmsh e file_name dim write_geo_flag correct_curve_loops save_all).1
   = filter defines_entity
       (write_geo gmsh file_name' e correct_curve_loops).1)
  ∧ ((mesh gmsh e file_name dim write_geo_flag correct_curve_loops save_all).2
     = None →
     filter defines_entity
       (mesh gmsh e file_name dim write_geo_flag correct_curve_loops save_all).1
     = entity_calls e correct_curve_loops)
  ∧ ((write_geo gmsh' file_name' e correct_curve_loops).2 = None →
     filter defines_entity (write_geo gmsh' file_name' e correct_curve_loops).1
     = entity_calls e correct_curve_loops)
  ∧ Forall (reorients correct_curve_loops)
      (mesh gmsh e file_name dim write_geo_flag correct_curve_loops save_all).1
  ∧ Forall (reorients correct_curve_loops)
      (write_geo gmsh' file_name' e correct_curve_loops).1.
Proof.
  intros Hdim. rewrite !mesh_statements, !write_geo_statements by done.
  pose proof (mesh_tail_quiet file_name dim write_geo_flag save_all) as Hm.
  pose proof (write_geo_tail_quiet file_name') as Hw.
  split; [|split; [|split; [|split]]].
  - intros Hname.
    destruct (run_statements gmsh [] _) as [ret out] eqn:Hrun.
    destruct (run_statements gmsh [] ((_ ++ write_geo_tail _) ++ _))
      as [ret' out'] eqn:Hrun'.
    apply session_entity_calls in Hrun; [|exact Hm].
    apply session_entity_calls in Hrun'; [|exact Hw].
    cbn [fst]. rewrite Hrun, Hrun'. unfold session_head. by rewrite Hname.
  - destruct (run_statements gmsh [] _) as [ret out] eqn:Hrun.
    cbn [fst snd]. intros ->.
    exact (session_complete_entity_calls _ _ _ _ _ _ Hm Hrun).
  - destruct (run_statements gmsh' [] _) as [ret out] eqn:Hrun.
    cbn [fst snd]. intros ->.
    exact (session_complete_entity_calls _ _ _ _ _ _ Hw Hrun).
  - destruct (run_statements gmsh [] _) as [ret out] eqn:Hrun. cbn [fst].
    apply session_returned in Hrun as [rest Hrest]; [|exact Hm].
    pose proof (session_reorients file_name e correct_curve_loops _ Hm) as Hall.
    rewrite Hrest in Hall. by apply Forall_app in Hall as [Hall _].
  - destruct (run_statements gmsh' [] _) as [ret out] eqn:Hrun. cbn [fst].
    apply session_returned in Hrun as [rest Hrest]; [|exact Hw].
    pose proof (session_reorients file_name' e correct_curve_loops _ Hw) as Hall.
    rewrite Hrest in Hall. by apply Forall_app in Hall as [Hall _].
Qed.

(** The square, meshed and written by a kernel that raises in
    [gmsh.write]. *)
Lemma mesh_and_write_geo_define_alike_witness :
  filter defines_entity
    (mesh no_write_gmsh (topology_entities square_topology) example_path 3
       false true true).1
  = filter defines_entity
      (write_geo no_write_gmsh example_path
         (topology_entities square_topology) true).1.
Proof.
  exact (proj1 (mesh_and_write_geo_define_alike no_write_gmsh no_write_gmsh
                  (topology_entities square_topology)
                  example_path example_path 3 false true true
                  (or_intror eq_refl))
           eq_refl).
Defined.

(** X16. A run of [mesh] (dim 2 or 3) without exception has set the option
    Mesh.MshFileVersion to 2, then Mesh.SaveAll to 1 exactly when
    [save_all] holds, and no other option; it has written the file with
    suffix .msh and then, exactly when [write_geo] holds, the file with
    suffix .geo_unrolled, and no other file; its last call is
    [gmsh.finalize()]. A run of [write_geo] without exception has set no
    option and written the .geo_unrolled file only, and its last call is
    [gmsh.finalize()]. In a run of either function that ends with an
    exception no call of [gmsh.finalize()] has returned: the session it
    opened, if [gmsh.initialize()] returned, is left open. *)
Theorem session_outputs gmsh e file_name dim
    write_geo_flag correct_curve_loops save_all :
  dim = 2 ∨ dim = 3 →
  ((mesh gmsh e file_name dim write_geo_flag correct_curve_loops save_all).2
   = None →
   options_set
     (mesh gmsh e file_name dim write_geo_flag correct_curve_loops save_all).1
   = ("Mesh.MshFileVersion", 2)
     :: (if save_all then [("Mesh.SaveAll", 1)] else [])
   ∧ Some <$> written_files
       (mesh gmsh e file_name dim write_geo_flag correct_curve_loops save_all).1
     = path_with_suffix file_name ".msh"
       :: (if write_geo_flag
           then [path_with_suffix file_name ".geo_unrolled"] else [])
   ∧ last (mesh gmsh e file_name dim write_geo_flag correct_curve_loops save_all).1
     = Some gmsh_finalize)
  ∧ (is_Some
       (mesh gmsh e file_name dim write_geo_flag correct_curve_loops save_all).2 →
     gmsh_finalize
     ∉ (mesh gmsh e file_name dim write_geo_flag correct_curve_loops save_all).1)
  ∧ ((write_geo gmsh file_name e correct_curve_loops).2 = None →
     options_set (write_geo gmsh file_name e correct_curve_loops).1 = []
     ∧ Some <$> written_files (write_geo gmsh file_name e correct_curve_loops).1
       = [path_with_suffix file_name ".geo_unrolled"]
     ∧ last (write_geo gmsh file_name e correct_curve_loops).1
       = Some gmsh_finalize)
  ∧ (is_Some (write_geo gmsh file_name e correct_curve_loops).2 →
     gmsh_finalize ∉ (write_geo gmsh file_name e correct_curve_loops).1).
Proof.
  intros Hdim. rewrite !mesh_statements, !write_geo_statements by done.
  pose proof (mesh_tail_quiet file_name dim write_geo_flag save_all) as Hm.
  pose proof (write_geo_tail_quiet file_name) as Hw.
  destruct (entity_calls_write_nothing e correct_curve_loops) as [Hfiles Hopts].
  split; [|split; [|split]].
  - destruct (run_statements gmsh [] _) as [ret out] eqn:Hrun.
    cbn [fst snd]. intros ->.
    pose proof (complete_no_exception _ _ _ _ ValueError Hrun) as Hno.
    pose proof (session_finalize _ _ _ _ _ Hm _ _ Hrun) as Hlast.
    apply session_end in Hrun; [|done]. subst ret.
    split; [|split; [|done]].
    + unfold options_set in *. unfold session_head.
      rewrite !omap_app, Hopts. unfold mesh_tail, write_to.
      by destruct save_all, write_geo_flag,
        (path_with_suffix file_name ".msh"),
        (path_with_suffix file_name ".geo_unrolled").
    + unfold written_files in *. unfold session_head.
      rewrite !omap_app, Hfiles.
      assert (inl ValueError ∉ mesh_tail file_name dim write_geo_flag save_all)
        as Htail.
      { intros Hin. apply Hno. apply elem_of_app. left.
        apply elem_of_app. by right. }
      clear Hno Hlast. unfold mesh_tail, write_to in *.
      destruct (path_with_suffix file_name ".msh") as [msh|];
        [|exfalso; apply Htail; destruct save_all; repeat constructor].
      destruct write_geo_flag; [|by destruct save_all].
      destruct (path_with_suffix file_name ".geo_unrolled") as [geo|];
        [by destruct save_all|].
      exfalso. apply Htail. destruct save_all; repeat constructor.
  - destruct (run_statements gmsh [] _) as [ret out] eqn:Hrun.
    cbn [fst snd]. intros [exn ->].
    exact (session_finalize _ _ _ _ _ Hm _ _ Hrun).
  - destruct (run_statements gmsh [] ((_ ++ write_geo_tail _) ++ _))
      as [ret out] eqn:Hrun.
    cbn [fst snd]. intros ->.
    pose proof (complete_no_exception _ _ _ _ ValueError Hrun) as Hno.
    pose proof (session_finalize _ _ _ _ _ Hw _ _ Hrun) as Hlast.
    apply session_end in Hrun; [|done]. subst ret.
    split; [|split; [|done]].
    + unfold options_set in *. unfold session_head.
      rewrite !omap_app, Hopts. unfold write_geo_tail, write_to.
      by destruct (path_with_suffix file_name ".geo_unrolled").
    + unfold written_files in *. unfold session_head.
      rewrite !omap_app, Hfiles.
      assert (inl ValueError ∉ write_geo_tail file_name) as Htail.
      { intros Hin. apply Hno. apply elem_of_app. left.
        apply elem_of_app. by right. }
      clear Hno Hlast. unfold write_geo_tail, write_to in *.
      destruct (path_with_suffix file_name ".geo_unrolled") as [geo|]; [done|].
      exfalso. apply Htail. repeat constructor.
  - destruct (run_statements gmsh [] ((_ ++ write_geo_tail _) ++ _))
      as [ret out] eqn:Hrun.
    cbn [fst snd]. intros [exn ->].
    exact (session_finalize _ _ _ _ _ Hw _ _ Hrun).
Qed.

(** The chess topology, meshed by a kernel that raises nowhere. *)
Lemma session_outputs_witness :
  written_files
    (mesh willing_gmsh (topology_entities chess_topology) example_path 2
       true false false).1
  = ["chess_board.msh"; "chess_board.geo_unrolled"].
Proof.
  destruct (session_outputs willing_gmsh (topology_entities chess_topology)
              example_path 2 true false false (or_introl eq_refl))
    as (Hmesh & _).
  destruct Hmesh as (_ & Hfiles & _); [by vm_compute|].
  apply (inj (fmap Some)). rewrite Hfiles. by vm_compute.
Defined.

(** [Path("")] has no name to put a suffix on: [with_suffix] raises
    ValueError, after the entities have been handed over, and the session
    stays open. *)
Example nameless_path_leaves_session_open :
  write_geo willing_gmsh nameless_path triangle_entities false
  = ([gmsh_initialize; gmsh_model_add ""]
     ++ entity_calls triangle_entities false
     ++ [geo_removeAllDuplicates; geo_synchronize],
     Some ValueError).
Proof. by vm_compute. Qed.
